(** * extract-translations: the key extractors and the resolver of [index.js]

    A shallow embedding of [src/index.js] and the properties of its
    markup extractor ([parseHTMLAst]), program extractor ([parseTSAst]) and
    resolver ([createJSONTranslations]).

    Conventions of the embedding.
    - A JavaScript string is the list of its UTF-16 code units; the model keeps
      the code units below 256, one [ascii] each.
    - A JavaScript number used as an index is a [Z] ([-1] is "not found").
    - A JavaScript value is a tree ([value]); objects keep their own
      properties in insertion order.  [member] reads own properties; the
      members that values inherit from the built-in prototypes are listed
      by their names ([inherits]), and the resolver leaves the domain of the
      model when it reads one of them.
    - Arrays that are shared and written to live in a store of arrays
      ([Arrays]); the runs of the extractors ([MarkupRun], [ProgramRun])
      thread it.
    - A computation either returns, throws a [TypeError], runs out of the
      fuel of a loop, or leaves the domain of the model. *)

From Stdlib Require Import List Ascii String ZArith Lia Bool.
From Stdlib Require Import DecimalString Permutation.
Import ListNotations.

Open Scope Z_scope.

Set Warnings "-register-all".

(* ================================================================== *)
(** * JavaScript strings *)
(* ================================================================== *)

Module JsString.

Definition jsstring := list ascii.

(** A literal of the source, as a list of code units. *)
Definition str (s : string) : jsstring := list_ascii_of_string s.

(** The two quote characters of the source: the single quote (code unit 39)
    and the double quote (code unit 34). *)
Definition squote : ascii := ascii_of_nat 39.
Definition dquote : ascii := ascii_of_nat 34.

Definition len (s : jsstring) : Z := Z.of_nat (List.length s).

Fixpoint eqb (a b : jsstring) : bool :=
  match a, b with
  | [], [] => true
  | x :: a', y :: b' => Ascii.eqb x y && eqb a' b'
  | _, _ => false
  end.

(** [WhiteSpace] and [LineTerminator] of ECMAScript, which is also what [\s]
    matches, among the code units below 256: TAB, LF, VT, FF, CR, SP, NBSP. *)
Definition isWhiteSpace (c : ascii) : bool :=
  let n := nat_of_ascii c in
  (Nat.leb 9 n && Nat.leb n 13) || Nat.eqb n 32 || Nat.eqb n 160.

Fixpoint trimStart (s : jsstring) : jsstring :=
  match s with
  | [] => []
  | c :: t => if isWhiteSpace c then trimStart t else s
  end.

Definition trimEnd (s : jsstring) : jsstring := rev (trimStart (rev s)).

(** [String.prototype.trim]. *)
Definition trim (s : jsstring) : jsstring := trimEnd (trimStart s).

Definition clamp (x n : Z) : Z := Z.min (Z.max x 0) n.

(** [String.prototype.substring(start, end)]: both indices are clamped to
    [0 .. length] and swapped when [start > end]; [end] omitted is the
    length. *)
Definition substring (s : jsstring) (start : Z) (end_ : option Z) : jsstring :=
  let n := len s in
  let fs := clamp start n in
  let fe := match end_ with None => n | Some e => clamp e n end in
  let from := Z.min fs fe in
  let to := Z.max fs fe in
  firstn (Z.to_nat (to - from)) (skipn (Z.to_nat from) s).

Fixpoint startsWith (needle s : jsstring) : bool :=
  match needle, s with
  | [], _ => true
  | _ :: _, [] => false
  | a :: needle', b :: s' => Ascii.eqb a b && startsWith needle' s'
  end.

Fixpoint indexOf_from (needle s : jsstring) (i : Z) : Z :=
  if startsWith needle s then i
  else match s with
       | [] => -1
       | _ :: t => indexOf_from needle t (i + 1)
       end.

(** [String.prototype.indexOf(needle)]. *)
Definition indexOf (s needle : jsstring) : Z := indexOf_from needle s 0.

(** [String.prototype.includes(needle)]. *)
Definition includes (s needle : jsstring) : bool := negb (indexOf s needle =? -1).

(** The largest index [k <= limit] at which [p] holds of the suffix starting
    at [k], scanning from index [i] with the best match so far. *)
Fixpoint scanLast (p : jsstring -> bool) (s : jsstring) (i limit best : Z) : Z :=
  let best' := if (i <=? limit) && p s then i else best in
  match s with
  | [] => best'
  | _ :: t => scanLast p t (i + 1) limit best'
  end.

(** [String.prototype.lastIndexOf(needle, position)]: the search starts at
    [min(max(position, 0), length - needle.length)] and goes backwards;
    [position] omitted is [+Infinity]. *)
Definition lastIndexOf (s needle : jsstring) (position : option Z) : Z :=
  let top := len s - len needle in
  let limit := match position with
               | None => top
               | Some p => Z.min (Z.max p 0) top
               end in
  scanLast (startsWith needle) s 0 limit (-1).

(** [String.prototype.split(sep)] for a separator of one code unit. *)
Fixpoint split (sep : ascii) (s : jsstring) : list jsstring :=
  match s with
  | [] => [[]]
  | c :: t =>
      if Ascii.eqb c sep then [] :: split sep t
      else match split sep t with
           | seg :: rest => (c :: seg) :: rest
           | [] => [[c]]
           end
  end.

(** [s.replace(/\s/g, '')]. *)
Definition removeWhiteSpace (s : jsstring) : jsstring :=
  filter (fun c => negb (isWhiteSpace c)) s.

(** [s.replace(/\n/g)]: the replacement is missing, hence [undefined], which
    [replace] turns into the text [undefined]. *)
Definition replaceNewlines (s : jsstring) : jsstring :=
  flat_map (fun c => if Ascii.eqb c (ascii_of_nat 10) then str "undefined" else [c]) s.

(** A canonical decimal numeral (a lone zero, or digits that do not start
    with zero) and its value. *)
Definition digit (c : ascii) : option N :=
  let n := N_of_ascii c in
  if (48 <=? n)%N && (n <=? 57)%N then Some (n - 48)%N else None.

Fixpoint digits (s : jsstring) (acc : N) : option N :=
  match s with
  | [] => Some acc
  | c :: t => match digit c with
              | Some d => digits t (10 * acc + d)%N
              | None => None
              end
  end.

Definition parseUint (s : jsstring) : option N :=
  match s with
  | [] => None
  | [c] => digit c
  | c :: _ => if Ascii.eqb c (ascii_of_nat 48) then None else digits s 0%N
  end.

End JsString.

(* ================================================================== *)
(** * Outcomes and JavaScript values *)
(* ================================================================== *)

Module JsValue.
Import JsString.

(** What a run of a piece of the program comes to. *)
Inductive outcome (A : Type) : Type :=
| Ok (a : A)      (* normal completion *)
| TypeError       (* an uncaught TypeError: the script stops *)
| OutOfFuel       (* a loop of the model ran out of fuel *)
| Unmodelled.     (* the run leaves the value model *)

Arguments Ok {A} a.
Arguments TypeError {A}.
Arguments OutOfFuel {A}.
Arguments Unmodelled {A}.

Definition bind {A B : Type} (m : outcome A) (k : A -> outcome B) : outcome B :=
  match m with
  | Ok a => k a
  | TypeError => TypeError
  | OutOfFuel => OutOfFuel
  | Unmodelled => Unmodelled
  end.

Notation "x <- m ;; k" := (bind m (fun x => k))
  (at level 61, m at next level, right associativity).

Fixpoint mapM {A B : Type} (f : A -> outcome B) (l : list A) : outcome (list B) :=
  match l with
  | [] => Ok []
  | a :: t => b <- f a ;; bs <- mapM f t ;; Ok (b :: bs)
  end.

(** JavaScript values as trees.  Numbers are the integers; an object is the
    list of its own properties in insertion order; an array is the list of
    its elements (a hole reads as [VUndef]). *)
Inductive value : Type :=
| VUndef
| VNull
| VBool (b : bool)
| VNum (n : Z)
| VStr (s : jsstring)
| VArr (items : list value)
| VObj (fields : list (jsstring * value)).

(** [ToBoolean]. *)
Definition truthy (v : value) : bool :=
  match v with
  | VUndef | VNull => false
  | VBool b => b
  | VNum n => negb (n =? 0)
  | VStr s => match s with [] => false | _ => true end
  | VArr _ | VObj _ => true
  end.

(** [v == null]. *)
Definition nullish (v : value) : bool :=
  match v with
  | VUndef | VNull => true
  | _ => false
  end.

(** lodash's [isObject]. *)
Definition isObject (v : value) : bool :=
  match v with
  | VArr _ | VObj _ => true
  | _ => false
  end.

(** [v === 'literal'] and [v === number]. *)
Definition strictEqStr (v : value) (s : jsstring) : bool :=
  match v with
  | VStr t => JsString.eqb t s
  | _ => false
  end.

Definition strictEqNum (v : value) (n : Z) : bool :=
  match v with
  | VNum m => m =? n
  | _ => false
  end.

Fixpoint lookup (fields : list (jsstring * value)) (key : jsstring) : option value :=
  match fields with
  | [] => None
  | (k, v) :: rest => if JsString.eqb k key then Some v else lookup rest key
  end.

(** An array index: a canonical numeral below [2^32 - 1]. *)
Definition arrayIndex (key : jsstring) : option nat :=
  match parseUint key with
  | Some n => if (n <? 4294967295)%N then Some (N.to_nat n) else None
  | None => None
  end.

(** [v[key]] for a [v] that is not [null] or [undefined], on the own
    properties of [v]: it is [v[key]] unless [v] inherits a member of that
    name (see [inherits]). *)
Definition member (v : value) (key : jsstring) : value :=
  match v with
  | VObj fields => match lookup fields key with Some x => x | None => VUndef end
  | VArr items =>
      if JsString.eqb key (str "length") then VNum (Z.of_nat (List.length items))
      else match arrayIndex key with
           | Some i => nth i items VUndef
           | None => VUndef
           end
  | VStr s =>
      if JsString.eqb key (str "length") then VNum (len s)
      else match arrayIndex key with
           | Some i => match nth_error s i with Some c => VStr [c] | None => VUndef end
           | None => VUndef
           end
  | _ => VUndef
  end.

(** The members that the values of a JSON document inherit, by their
    names: the properties of [Object.prototype], [Array.prototype],
    [String.prototype] and [Number.prototype] in ECMAScript 2024 with its
    annex B (and the array grouping methods that some engines had before);
    a boolean inherits [toString] and [valueOf], which are names of
    [Object.prototype] too.  Every one of them is a function, but
    [__proto__], which reads as the prototype. *)
Definition objectMembers : list jsstring :=
  (map str
     [ "__defineGetter__"; "__defineSetter__"; "__lookupGetter__"; "__lookupSetter__";
       "__proto__"; "constructor"; "hasOwnProperty"; "isPrototypeOf";
       "propertyIsEnumerable"; "toLocaleString"; "toString"; "valueOf" ])%string.

Definition arrayMembers : list jsstring :=
  (map str
     [ "at"; "concat"; "copyWithin"; "entries"; "every"; "fill"; "filter"; "find";
       "findIndex"; "findLast"; "findLastIndex"; "flat"; "flatMap"; "forEach";
       "group"; "groupBy"; "groupToMap"; "includes"; "indexOf"; "join"; "keys";
       "lastIndexOf"; "map"; "pop"; "push"; "reduce"; "reduceRight"; "reverse";
       "shift"; "slice"; "some"; "sort"; "splice"; "toReversed"; "toSorted";
       "toSpliced"; "unshift"; "values"; "with" ])%string.

Definition stringMembers : list jsstring :=
  (map str
     [ "anchor"; "at"; "big"; "blink"; "bold"; "charAt"; "charCodeAt"; "codePointAt";
       "concat"; "endsWith"; "fixed"; "fontcolor"; "fontsize"; "includes"; "indexOf";
       "isWellFormed"; "italics"; "lastIndexOf"; "link"; "localeCompare"; "match";
       "matchAll"; "normalize"; "padEnd"; "padStart"; "repeat"; "replace";
       "replaceAll"; "search"; "slice"; "small"; "split"; "startsWith"; "strike";
       "sub"; "substr"; "substring"; "sup"; "toLocaleLowerCase"; "toLocaleUpperCase";
       "toLowerCase"; "toUpperCase"; "toWellFormed"; "trim"; "trimEnd"; "trimLeft";
       "trimRight"; "trimStart" ])%string.

Definition numberMembers : list jsstring :=
  (map str [ "toExponential"; "toFixed"; "toPrecision" ])%string.



(** [v[key]] is a member that [v] inherits: [key] names no own property of
    [v] and is a name of the prototypes of [v]. *)
Definition inherits (v : value) (key : jsstring) : bool :=
  match v with
  | VObj fields =>
      match lookup fields key with
      | Some _ => false
      | None => existsb (JsString.eqb key) objectMembers
      end
  | VArr _ => existsb (JsString.eqb key) (arrayMembers ++ objectMembers)
  | VStr _ => existsb (JsString.eqb key) (stringMembers ++ objectMembers)
  | VNum _ => existsb (JsString.eqb key) (numberMembers ++ objectMembers)
  | VBool _ => existsb (JsString.eqb key) objectMembers
  | VUndef | VNull => false
  end.

(** [v.key] or [v[key]] for any [v]: reading a property of [null] or
    [undefined] throws. *)
Definition prop (v : value) (key : jsstring) : outcome value :=
  if nullish v then TypeError else Ok (member v key).

(** [key in object], own properties only. *)
Definition hasOwn (object : value) (key : jsstring) : bool :=
  match object with
  | VObj fields => match lookup fields key with Some _ => true | None => false end
  | VArr items =>
      JsString.eqb key (str "length")
      || match arrayIndex key with Some i => Nat.ltb i (List.length items) | None => false end
  | _ => false
  end.

(** [fields[key] = v]: an existing property keeps its place, a new one goes
    last. *)
Fixpoint setField (fields : list (jsstring * value)) (key : jsstring) (v : value)
  : list (jsstring * value) :=
  match fields with
  | [] => [(key, v)]
  | (k, x) :: rest =>
      if JsString.eqb k key then (k, v) :: rest else (k, x) :: setField rest key v
  end.

(** [items[i] = v]: writing past the end extends the array with holes. *)
Fixpoint setItem (items : list value) (i : nat) (v : value) : list value :=
  match i, items with
  | O, [] => [v]
  | O, _ :: rest => v :: rest
  | S j, [] => VUndef :: setItem [] j v
  | S j, x :: rest => x :: setItem rest j v
  end.

(** SameValueZero, as [Set] compares its members.  Two objects are the same
    only when they are one object; the objects compared by the program (the
    arrays built by [map]) are all distinct. *)
Definition sameValueZero (a b : value) : bool :=
  match a, b with
  | VUndef, VUndef => true
  | VNull, VNull => true
  | VBool x, VBool y => Bool.eqb x y
  | VNum x, VNum y => x =? y
  | VStr x, VStr y => JsString.eqb x y
  | _, _ => false
  end.

End JsValue.

(* ================================================================== *)
(** * The two lodash functions the program calls *)
(* ================================================================== *)

Module Lodash.
Import JsString JsValue.

(** [_.get] and [_.set] read [object[key]] with [member], that is on own
    properties: they are lodash's functions on the paths none of whose keys
    is the name of an inherited member of the object it is read from;
    [inheritedOnPath] says when [_.set] reads such a member. *)

(** [stringToPath] on a path of names separated by single dots, the only
    paths the program passes as strings. *)
Definition stringToPath (path : jsstring) : list jsstring := split "."%char path.

(** [isKey]: a string without a dot is a key, and so is any own property
    name of the object. *)
Definition isKey (path : jsstring) (object : value) : bool :=
  negb (existsb (Ascii.eqb "."%char) path) || hasOwn object path.

(** [castPath] followed by [toKey] on each segment; the path [undefined]
    (here [None]) is the one key [undefined]. *)
Definition castPath (path : option jsstring) (object : value) : list jsstring :=
  match path with
  | None => [str "undefined"]
  | Some p => if isKey p object then [p] else stringToPath p
  end.

(** The loop of [baseGet]: it stops on [null] or [undefined], and the result
    is [undefined] unless the whole path was consumed. *)
Fixpoint baseGet (object : value) (path : list jsstring) : value :=
  match path with
  | [] => object
  | key :: rest => if nullish object then VUndef else baseGet (member object key) rest
  end.

(** [_.get(object, path)]. *)
Definition get (object : value) (path : option jsstring) : value :=
  if nullish object then VUndef else baseGet object (castPath path object).

(** lodash's [isIndex]: a canonical numeral below [2^53 - 1]. *)
Definition isIndex (key : jsstring) : bool :=
  match parseUint key with
  | Some n => (n <? 9007199254740991)%N
  | None => false
  end.

Definition reservedKey (key : jsstring) : bool :=
  JsString.eqb key (str "__proto__")
  || JsString.eqb key (str "constructor")
  || JsString.eqb key (str "prototype").

(** [assignValue(object, key, v)] on an object or an array.  An array of
    the model has its elements only: writing a named member into an array
    leaves the domain of the model. *)
Definition assignValue (object : value) (key : jsstring) (v : value) : outcome value :=
  match object with
  | VObj fields => Ok (VObj (setField fields key v))
  | VArr items =>
      match arrayIndex key with
      | Some i => Ok (VArr (setItem items i v))
      | None => Unmodelled
      end
  | _ => Ok object
  end.

(** The loop of [baseSet], on the path that is left and the object reached
    ([nested]); it gives [nested] back, updated. *)
Fixpoint baseSet (nested : value) (path : list jsstring) (v : value) : outcome value :=
  match path with
  | [] => Ok nested
  | key :: rest =>
      if nullish nested then Ok nested
      else if reservedKey key then Ok nested
      else match rest with
           | [] => assignValue nested key v
           | next :: _ =>
               let objValue := member nested key in
               let newValue :=
                 if isObject objValue then objValue
                 else if isIndex next then VArr [] else VObj [] in
               child <- baseSet newValue rest v ;;
               assignValue nested key child
           end
  end.

(** The loop of [baseSet] reads a member that the object reached inherits:
    it reads [nested[key]] for every key but the last, which it only
    assigns. *)
Fixpoint inheritedOnPath (nested : value) (path : list jsstring) : bool :=
  match path with
  | [] => false
  | key :: rest =>
      if nullish nested then false
      else if reservedKey key then false
      else match rest with
           | [] => false
           | next :: _ =>
               let objValue := member nested key in
               let newValue :=
                 if isObject objValue then objValue
                 else if isIndex next then VArr [] else VObj [] in
               inherits nested key || inheritedOnPath newValue rest
           end
  end.

(** [_.set(object, path, v)] with the path given as an array. *)
Definition set (object : value) (path : list jsstring) (v : value) : outcome value :=
  if isObject object then baseSet object path v else Ok object.

End Lodash.

(* ================================================================== *)
(** * The markup extractor *)
(* ================================================================== *)

Module Markup.
Import JsString JsValue.

Definition UNABLE_TO_RESOLVE_VALUE : jsstring := str "UNABLE_TO_RESOLVE_VALUE".

(** What [parseHTMLAst] takes from its work queue: an array of such things,
    or a node of the markup parser, of which the program reads [childNodes],
    [rawAttrs], [rawText] and the method [getAttribute] (any of them may be
    missing: a text node has only [rawText]). *)
Inductive htmlnode : Type :=
| HtmlArray (items : list htmlnode)
| HtmlNode (childNodes : option (list htmlnode))
           (rawAttrs rawText : option jsstring)
           (getAttribute : option (jsstring -> option jsstring)).

Definition childNodes (node : htmlnode) : option (list htmlnode) :=
  match node with
  | HtmlArray _ => None
  | HtmlNode c _ _ _ => c
  end.

Definition rawAttrs (node : htmlnode) : option jsstring :=
  match node with
  | HtmlArray _ => None
  | HtmlNode _ a _ _ => a
  end.

Definition rawText (node : htmlnode) : option jsstring :=
  match node with
  | HtmlArray _ => None
  | HtmlNode _ _ t _ => t
  end.

Definition getAttribute (node : htmlnode) : option (jsstring -> option jsstring) :=
  match node with
  | HtmlArray _ => None
  | HtmlNode _ _ _ g => g
  end.

(** Truthiness of a string that may be [undefined]. *)
Definition nonEmpty (s : option jsstring) : bool :=
  match s with
  | Some (_ :: _) => true
  | _ => false
  end.

(** [prettifyKey] on a string: the second [replace] finds nothing to
    replace once the first has removed all white space. *)
Definition prettifyKey (key : jsstring) : jsstring :=
  replaceNewlines (removeWhiteSpace key).

Definition translateKeyword : jsstring := str "| translate".

(** The body of the loop of [extractTranslationsFromString] once the marker
    is found at [currentTranslateIndex]: the candidate it pushes. *)
Definition translationKeyAt (currentString : jsstring) (currentTranslateIndex : Z) : jsstring :=
  let attrs := trim (substring currentString 0 (Some currentTranslateIndex)) in
  let end_ := Z.max (lastIndexOf attrs [squote] None) (lastIndexOf attrs [dquote] None) in
  let start := Z.max (lastIndexOf attrs [squote] (Some (end_ - 1)))
                     (lastIndexOf attrs [dquote] (Some (end_ - 1))) + 1 in
  let unresolvedValue := UNABLE_TO_RESOLVE_VALUE ++ str ": " ++ prettifyKey attrs in
  match trim (substring attrs start (Some end_)) with
  | [] => unresolvedValue
  | translationKey => translationKey
  end.

(** The [while (true)] loop of [extractTranslationsFromString]. *)
Fixpoint extractLoop (fuel : nat) (currentString : jsstring) (results : list jsstring)
  : outcome (list jsstring) :=
  let currentTranslateIndex := indexOf currentString translateKeyword in
  if currentTranslateIndex =? -1 then Ok results
  else match fuel with
       | O => OutOfFuel
       | S fuel' =>
           extractLoop fuel'
             (substring currentString (currentTranslateIndex + len translateKeyword) None)
             (results ++ [translationKeyAt currentString currentTranslateIndex])
       end.

Definition extractTranslationsFromString (value : jsstring) : outcome (list jsstring) :=
  extractLoop (List.length value) value [].

Definition getAttributeTranslation (node : htmlnode) : outcome (list jsstring) :=
  match getAttribute node with
  | None => Ok []
  | Some getAttr =>
      match getAttr (str "translate") with
      | Some (c :: translationKey) => Ok [trim (c :: translationKey)]
      | _ =>
          match rawAttrs node with
          | Some attrs => extractTranslationsFromString attrs
          | None => TypeError
          end
      end
  end.

Definition getTextTranslation (node : htmlnode) : outcome (list jsstring) :=
  match rawText node with
  | Some (c :: text) =>
      if includes (c :: text) (str "translate")
      then extractTranslationsFromString (c :: text)
      else Ok []
  | _ => Ok []
  end.

(** What one turn of the loop of [parseHTMLAst] pushes on the queue. *)
Definition pushedNodes (currentNode : htmlnode) : list htmlnode :=
  match childNodes currentNode with
  | Some (c :: cs) => c :: cs
  | _ => match currentNode with
         | HtmlArray items => items
         | HtmlNode _ _ _ _ => []
         end
  end.

(** The [while (nodesToIterate.length)] loop of [parseHTMLAst]. *)
Fixpoint parseLoop (fuel : nat) (nodesToIterate : list htmlnode) (results : list jsstring)
  : outcome (list jsstring) :=
  match nodesToIterate with
  | [] => Ok results
  | currentNode :: rest =>
      match fuel with
      | O => OutOfFuel
      | S fuel' =>
          let queue := rest ++ pushedNodes currentNode in
          if nonEmpty (rawAttrs currentNode) || nonEmpty (rawText currentNode) then
            attrValue <- getAttributeTranslation currentNode ;;
            textValue <- getTextTranslation currentNode ;;
            parseLoop fuel' queue (results ++ attrValue ++ textValue)
          else parseLoop fuel' queue results
      end
  end.

(** The number of nodes and arrays below (and including) a queue entry. *)
Fixpoint size (node : htmlnode) : nat :=
  let fix sizes (l : list htmlnode) : nat :=
    match l with
    | [] => O
    | n :: t => (size n + sizes t)%nat
    end in
  match node with
  | HtmlArray items => S (sizes items)
  | HtmlNode (Some cs) _ _ _ => S (sizes cs)
  | HtmlNode None _ _ _ => 1%nat
  end.

Definition sizes (l : list htmlnode) : nat := fold_right (fun n acc => (size n + acc)%nat) O l.

(** [parseHTMLAst(trees)]: the queue starts as a copy of [trees]. *)
Definition parseHTMLAst (trees : list htmlnode) : outcome (list jsstring) :=
  parseLoop (sizes trees) trees [].

End Markup.

(* ================================================================== *)
(** * The program extractor *)
(* ================================================================== *)

Module Program.
Import JsString JsValue.

(** A node of the TypeScript parser: the object the program reads
    properties of ([kind], [expression], [arguments], ...), and the nodes
    that [forEachChild] visits, in its order. *)
Inductive tsnode : Type :=
| TsNode (self : value) (children : list tsnode).

Definition self (node : tsnode) : value :=
  match node with TsNode s _ => s end.

Definition children (node : tsnode) : list tsnode :=
  match node with TsNode _ c => c end.

Definition validFields : list jsstring :=
  [ str "text";
    str "expression.escapedText";
    str "name.escapedText";
    str "expression.name.escapedText";
    str "left.expression.name.escapedText";
    str "right.expression.name.escapedText";
    str "head.text";
    str "condition.expression.name.escapedText";
    str "condition.expression.escapedText";
    str "condition.escapedText";
    str "whenTrue.text";
    str "whenFalse.text" ].

(** [prettifyKey(key)] on any value: [key.replace] exists on strings only. *)
Definition prettifyKey (key : value) : outcome jsstring :=
  match key with
  | VStr s => Ok (Markup.prettifyKey s)
  | _ => TypeError
  end.

(** [array.map(f)]; a value that is not an array has no [map] to call. *)
Definition arrayMap (array : value) (f : value -> outcome value) : outcome value :=
  match array with
  | VArr items => items' <- mapM f items ;; Ok (VArr items')
  | _ => TypeError
  end.

(** The function mapped over [argumentNodes]: the key inferred from one
    argument node. *)
Definition translationKeyOf (node : value) : outcome value :=
  let field := find (fun validField => truthy (Lodash.get node (Some validField))) validFields in
  let name := Lodash.get node field in
  if truthy name then Ok name
  else
    nodeElements <- prop node (str "elements") ;;
    elements <- (if truthy nodeElements
                 then arrayMap nodeElements (fun element => prop element (str "text"))
                 else Ok nodeElements) ;;
    if truthy elements && truthy (member elements (str "length")) then Ok elements
    else
      key <- prettifyKey name ;;
      Ok (VStr (Markup.UNABLE_TO_RESOLVE_VALUE ++ str ":" ++ key)).

(** [const [fnArguments] = node.arguments]: the first element of an
    iterable. *)
Definition firstOf (iterable : value) : outcome value :=
  match iterable with
  | VArr items => Ok (hd VUndef items)
  | VStr s => Ok (match s with [] => VUndef | c :: _ => VStr [c] end)
  | _ => TypeError
  end.

(** The activation test of [parseFiles]. *)
Definition isInstantCall (node : value) : bool :=
  let expression := member node (str "expression") in
  truthy expression
  && strictEqNum (member node (str "kind")) 207
  && truthy (member expression (str "name"))
  && strictEqStr (member (member expression (str "name")) (str "escapedText")) (str "instant").

(** What [parseFiles] pushes at one node, before it goes to the children. *)
Definition keysAt (node : value) : outcome (list value) :=
  if nullish node then TypeError
  else if isInstantCall node then
    fnArguments <- firstOf (member node (str "arguments")) ;;
    let argumentNodes := match fnArguments with
                         | VArr items => items
                         | _ => [fnArguments]
                         end in
    mapM translationKeyOf argumentNodes
  else Ok [].

(** [parseFiles(node)], with [parseResults] passed along. *)
Fixpoint parseFiles (node : tsnode) (parseResults : list value) : outcome (list value) :=
  match node with
  | TsNode self children =>
      translationKeys <- keysAt self ;;
      (fix forEachChild (nodes : list tsnode) (acc : list value) : outcome (list value) :=
         match nodes with
         | [] => Ok acc
         | child :: rest => acc' <- parseFiles child acc ;; forEachChild rest acc'
         end) children (parseResults ++ translationKeys)
  end.

Fixpoint forEachRoot (roots : list tsnode) (parseResults : list value) : outcome (list value) :=
  match roots with
  | [] => Ok parseResults
  | rootNode :: rest => acc <- parseFiles rootNode parseResults ;; forEachRoot rest acc
  end.

(** [parseTSAst], given the root node that [createTsAST] returns for each
    file. *)
Definition parseTSAst (roots : list tsnode) : outcome (list value) :=
  forEachRoot roots [].

End Program.

(* ================================================================== *)
(** * The resolver and the script as a whole *)
(* ================================================================== *)

Module Resolver.
Import JsString JsValue.

(** [Array.prototype.flat()], one level deep. *)
Definition flat (l : list value) : list value :=
  flat_map (fun v => match v with VArr items => items | _ => [v] end) l.

(** [[...new Set(results)]]: the first occurrence of each value, in order. *)
Fixpoint dedup (seen : list value) (l : list value) : list value :=
  match l with
  | [] => []
  | v :: t => if existsb (sameValueZero v) seen then dedup seen t
              else v :: dedup (v :: seen) t
  end.

Definition filterResults (results : list value) : list value := dedup [] results.

(** The inner [path.reduce]: the walk through the catalog, on the own
    properties of the values it passes. *)
Definition walk (translationsObject : value) (path : list jsstring) : value :=
  fold_left (fun acc current => if truthy acc then member acc current else VStr [])
            path translationsObject.

(** The walk along [path] reads a member that the value reached
    inherits. *)
Fixpoint walkInherits (acc : value) (path : list jsstring) : bool :=
  match path with
  | [] => false
  | current :: rest =>
      truthy acc && (inherits acc current || walkInherits (member acc current) rest)
  end.

(** The walk along [path] reads a member of a value that is not an object
    or an array (of a string, say, its [length] or one of its
    characters). *)
Fixpoint readsPrimitive (acc : value) (path : list jsstring) : bool :=
  match path with
  | [] => false
  | current :: rest => negb (isObject acc) || readsPrimitive (member acc current) rest
  end.

(** The function reduced over [translationKeys]; the state is the
    accumulator (the resolved translations) and [unresolvedTranslations].

    The model gives no answer in two cases.  When [acc[current]] in the
    walk, or [nested[key]] in [_.set], is a member that the value inherits,
    the script goes on with that member, which the values of the model do
    not hold.  When the walk ends on a truthy value and has read a member of
    a string on its way (as [a.b.length]), [_.set] replaces that string by a
    new object; in the script the string may be a property of an object of
    the catalog that an earlier [_.set] stored in the accumulator, and the
    catalog would change with it, whereas the values of the model are trees
    and what is stored in the accumulator is a copy.  In every other case
    [_.set] writes into an object of the catalog only the value that it has
    there already, and the copy and the object cannot be told apart. *)
Definition fileKey (translationsObject : value) (state : value * value) (key : value)
  : outcome (value * value) :=
  let (acc, unresolvedTranslations) := state in
  match key with
  | VStr k =>
      let path := split "."%char k in
      if walkInherits translationsObject path then Unmodelled
      else
        let value := walk translationsObject path in
        if truthy value then
          if readsPrimitive translationsObject path || Lodash.inheritedOnPath acc path
          then Unmodelled
          else acc' <- Lodash.set acc path value ;; Ok (acc', unresolvedTranslations)
        else
          if Lodash.inheritedOnPath unresolvedTranslations path then Unmodelled
          else unresolved' <- Lodash.set unresolvedTranslations path key ;;
               Ok (acc, unresolved')
  | _ => TypeError
  end.

Fixpoint reduceKeys (translationsObject : value) (translationKeys : list value)
  (state : value * value) : outcome (value * value) :=
  match translationKeys with
  | [] => Ok state
  | key :: rest =>
      state' <- fileKey translationsObject state key ;;
      reduceKeys translationsObject rest state'
  end.

(** [createJSONTranslations], given the catalog merged from the JSON files;
    the result is the pair that is written to [translations.json] and
    [unresolved-translations.json]. *)
Definition createJSONTranslations (translationsObject : value) (translationKeys : list value)
  : outcome (value * value) :=
  reduceKeys translationsObject translationKeys (VObj [], VObj []).

(** The top of the script, from the parsed inputs to the two results. *)
Definition script (trees : list Markup.htmlnode) (roots : list Program.tsnode)
  (translationsObject : value) : outcome (value * value) :=
  htmlTranslationKeys <- Markup.parseHTMLAst trees ;;
  parsed <- Program.parseTSAst roots ;;
  let tsTranslationsKeys := flat parsed in
  let filteredResults := filterResults (map VStr htmlTranslationKeys ++ tsTranslationsKeys) in
  createJSONTranslations translationsObject filteredResults.

End Resolver.

(* ================================================================== *)
(** * Vocabulary of the statements *)
(* ================================================================== *)

Module Vocabulary.
Import JsString JsValue.

Definition isQuote (c : ascii) : bool := Ascii.eqb squote c || Ascii.eqb dquote c.

(** A predicate on the first code unit of a string. *)
Definition headIs (f : ascii -> bool) (s : jsstring) : bool :=
  match s with
  | c :: _ => f c
  | [] => false
  end.

(** The text before the first [| translate] of [value], trimmed (the
    [attrs] of the loop), and the text after it (the next [currentString]). *)
Definition beforeMarker (value : jsstring) : jsstring :=
  trim (substring value 0 (Some (indexOf value Markup.translateKeyword))).

Definition afterMarker (value : jsstring) : jsstring :=
  substring value (indexOf value Markup.translateKeyword + len Markup.translateKeyword) None.

(** The marker the markup extractor emits for the text [attrs] before a
    [| translate]. *)
Definition markupMarker (attrs : jsstring) : jsstring :=
  Markup.UNABLE_TO_RESOLVE_VALUE ++ str ": " ++ removeWhiteSpace attrs.

(** Where a backward search for a one-character needle starts. *)
Definition searchLimit (s : jsstring) (position : option Z) : Z :=
  match position with
  | None => len s - 1
  | Some p => Z.min (Z.max p 0) (len s - 1)
  end.

(** The last quoted segment as the specification words it: the text
    strictly between the rightmost quote and the nearest quote of the same
    kind before it, when there is such a pair. *)
Definition specLastQuotedSegment (attrs : jsstring) : option jsstring :=
  let end_ := Z.max (lastIndexOf attrs [squote] None) (lastIndexOf attrs [dquote] None) in
  if end_ <? 1 then None
  else match nth_error attrs (Z.to_nat end_) with
       | None => None
       | Some q =>
           let start := lastIndexOf attrs [q] (Some (end_ - 1)) in
           if start =? -1 then None
           else Some (substring attrs (start + 1) (Some end_))
       end.

(** ** Markup nodes as the markup parser builds them *)

Fixpoint attribute (attrs : list (jsstring * jsstring)) (name : jsstring) : option jsstring :=
  match attrs with
  | [] => None
  | (k, v) :: rest => if JsString.eqb k name then Some v else attribute rest name
  end.

(** An element: its raw attribute text, the attributes parsed from it, its
    raw text and its children. *)
Definition element (rawAttrs : jsstring) (attrs : list (jsstring * jsstring))
  (rawText : jsstring) (childNodes : list Markup.htmlnode) : Markup.htmlnode :=
  Markup.HtmlNode (Some childNodes) (Some rawAttrs) (Some rawText) (Some (attribute attrs)).

(** A text node has neither attributes nor [getAttribute]. *)
Definition textNode (rawText : jsstring) : Markup.htmlnode :=
  Markup.HtmlNode (Some []) None (Some rawText) None.

(** Two markup trees that the program cannot tell apart: the same shape,
    the same raw strings, and [getAttribute] methods that answer alike. *)
Definition sameMethod (g1 g2 : option (jsstring -> option jsstring)) : Prop :=
  match g1, g2 with
  | None, None => True
  | Some f1, Some f2 => forall name, f1 name = f2 name
  | _, _ => False
  end.

Inductive sameTree : Markup.htmlnode -> Markup.htmlnode -> Prop :=
| same_array items1 items2 :
    Forall2 sameTree items1 items2 ->
    sameTree (Markup.HtmlArray items1) (Markup.HtmlArray items2)
| same_leaf a t g1 g2 :
    sameMethod g1 g2 ->
    sameTree (Markup.HtmlNode None a t g1) (Markup.HtmlNode None a t g2)
| same_inner cs1 cs2 a t g1 g2 :
    Forall2 sameTree cs1 cs2 ->
    sameMethod g1 g2 ->
    sameTree (Markup.HtmlNode (Some cs1) a t g1) (Markup.HtmlNode (Some cs2) a t g2).

(** ** Program nodes as the TypeScript parser builds them

    Only the properties the program can reach are kept; [kind] is numbered
    as in the TypeScript releases in which a call expression is 207. *)

Definition field (name : string) (v : value) : jsstring * value := (str name, v).

Definition object (fields : list (jsstring * value)) : value := VObj fields.

Definition identifier (name : string) : Program.tsnode :=
  Program.TsNode
    (object [field "kind" (VNum 79);
             field "escapedText" (VStr (str name));
             field "text" (VStr (str name))])
    [].

Definition stringLiteral (text : jsstring) : Program.tsnode :=
  Program.TsNode (object [field "kind" (VNum 10); field "text" (VStr text)]) [].

Definition propertyAccess (expression : Program.tsnode) (name : string) : Program.tsnode :=
  Program.TsNode
    (object [field "kind" (VNum 205);
             field "expression" (Program.self expression);
             field "name" (Program.self (identifier name))])
    [expression; identifier name].

Definition callExpression (expression : Program.tsnode) (arguments : list Program.tsnode)
  : Program.tsnode :=
  Program.TsNode
    (object [field "kind" (VNum 207);
             field "expression" (Program.self expression);
             field "arguments" (VArr (map Program.self arguments))])
    (expression :: arguments).

Definition arrayLiteral (elements : list Program.tsnode) : Program.tsnode :=
  Program.TsNode
    (object [field "kind" (VNum 203); field "elements" (VArr (map Program.self elements))])
    elements.

Definition binaryExpression (left operatorToken right : Program.tsnode) : Program.tsnode :=
  Program.TsNode
    (object [field "kind" (VNum 220);
             field "left" (Program.self left);
             field "operatorToken" (Program.self operatorToken);
             field "right" (Program.self right)])
    [left; operatorToken; right].

Definition plusToken : Program.tsnode :=
  Program.TsNode (object [field "kind" (VNum 39)]) [].

Definition conditionalExpression (condition whenTrue whenFalse : Program.tsnode)
  : Program.tsnode :=
  Program.TsNode
    (object [field "kind" (VNum 221);
             field "condition" (Program.self condition);
             field "whenTrue" (Program.self whenTrue);
             field "whenFalse" (Program.self whenFalse)])
    [condition; whenTrue; whenFalse].

Definition expressionStatement (expression : Program.tsnode) : Program.tsnode :=
  Program.TsNode
    (object [field "kind" (VNum 237); field "expression" (Program.self expression)])
    [expression].

(** The root of a file: the statements are its children. *)
Definition sourceFile (statements : list Program.tsnode) : Program.tsnode :=
  Program.TsNode (object [field "statements" (VArr (map Program.self statements))]) statements.

(** The probes for the condition of a conditional expression, and the
    probes that come before them. *)
Definition earlierFields : list jsstring := firstn 7 Program.validFields.

Definition conditionFields : list jsstring :=
  [ str "condition.expression.name.escapedText";
    str "condition.expression.escapedText";
    str "condition.escapedText" ].

End Vocabulary.

(* ================================================================== *)
(** * The catalog and the discovery of the files *)
(* ================================================================== *)

Module Catalog.
Import JsString JsValue.









End Catalog.

Module Files.
Import JsString JsValue.

(** What [readdirSync] lists, with the file types: a file, a directory
    (with what [readdirSync] lists in it) or something else (a link, a
    socket...), for which [isFile] and [isDirectory] are both false.  The
    file system is this tree for the whole run. *)
Inductive dirent : Type :=
| File (name : jsstring)
| Directory (name : jsstring) (entries : list dirent)
| Other (name : jsstring).

Definition name (entry : dirent) : jsstring :=
  match entry with
  | File n | Directory n _ | Other n => n
  end.

(** [String.prototype.endsWith(suffix)]. *)
Definition endsWith (s suffix : jsstring) : bool := startsWith (rev suffix) (rev s).

(** [path.resolve(currentPath, name)] and [path.resolve(currentPath + '/' +
    name)] on POSIX paths, for an absolute normalized [currentPath] and a
    name that [readdirSync] listed. *)
Definition resolveChild (currentPath name : jsstring) : jsstring :=
  if JsString.eqb currentPath (str "/") then currentPath ++ name
  else currentPath ++ str "/" ++ name.

(** The state of [findRelevantFiles]; a path of [pathsToIterate] goes with
    the entries that [readdirSync] will list for it. *)
Record found : Type := {
  htmlFiles : list jsstring;
  tsFiles : list jsstring;
  pathsToIterate : list (jsstring * list dirent)
}.

(** The function passed to [forEach] over the entries of [currentPath]. *)
Definition visitEntry (currentPath : jsstring) (state : found) (entry : dirent) : found :=
  let isHTML := endsWith (name entry) (str ".html") in
  let isTS := endsWith (name entry) (str ".ts") in
  match entry with
  | File n =>
      if isHTML || isTS then
        let relevantPath := resolveChild currentPath n in
        if isHTML
        then {| htmlFiles := htmlFiles state ++ [relevantPath];
                tsFiles := tsFiles state;
                pathsToIterate := pathsToIterate state |}
        else {| htmlFiles := htmlFiles state;
                tsFiles := tsFiles state ++ [relevantPath];
                pathsToIterate := pathsToIterate state |}
      else state
  | Directory n entries =>
      {| htmlFiles := htmlFiles state;
         tsFiles := tsFiles state;
         pathsToIterate := pathsToIterate state ++ [(resolveChild currentPath n, entries)] |}
  | Other _ => state
  end.

(** The [while (pathsToIterate.length)] loop. *)
Fixpoint findLoop (fuel : nat) (state : found) : outcome (list jsstring * list jsstring) :=
  match pathsToIterate state with
  | [] => Ok (htmlFiles state, tsFiles state)
  | (currentPath, entries) :: rest =>
      match fuel with
      | O => OutOfFuel
      | S fuel' =>
          findLoop fuel'
            (fold_left (visitEntry currentPath) entries
               {| htmlFiles := htmlFiles state;
                  tsFiles := tsFiles state;
                  pathsToIterate := rest |})
      end
  end.

(** The number of directories below (and including) a listed entry. *)
Fixpoint directories (entry : dirent) : nat :=
  let fix below (l : list dirent) : nat :=
    match l with
    | [] => O
    | e :: t => (directories e + below t)%nat
    end in
  match entry with
  | Directory _ entries => S (below entries)
  | _ => O
  end.

(** [findRelevantFiles()], given the resolved path of the target folder and
    what it contains. *)
Definition findRelevantFiles (root : jsstring) (entries : list dirent)
  : outcome (list jsstring * list jsstring) :=
  findLoop (directories (Directory root entries))
           {| htmlFiles := []; tsFiles := []; pathsToIterate := [(root, entries)] |}.

End Files.

(* ================================================================== *)
(** * Vocabulary of the further statements *)
(* ================================================================== *)

Module Coverage.
Import JsString JsValue Markup Program Files Resolver.

(** The candidates the traversal takes from one markup node. *)
Definition nodeKeys (node : htmlnode) : list jsstring :=
  if nonEmpty (rawAttrs node) || nonEmpty (rawText node) then
    match getAttributeTranslation node, getTextTranslation node with
    | Ok attrValue, Ok textValue => attrValue ++ textValue
    | _, _ => []
    end
  else [].

(** The candidates of a node and of all that is below it. *)
Fixpoint treeKeys (node : htmlnode) : list jsstring :=
  let fix forestKeys (l : list htmlnode) : list jsstring :=
    match l with
    | [] => []
    | n :: t => treeKeys n ++ forestKeys t
    end in
  nodeKeys node ++ match node with
                   | HtmlArray items => forestKeys items
                   | HtmlNode (Some cs) _ _ _ => forestKeys cs
                   | HtmlNode None _ _ _ => []
                   end.

(** A markup tree as the parser builds it: a node that has [getAttribute]
    has a raw attribute string. *)
Fixpoint parserTree (node : htmlnode) : bool :=
  let fix parserForest (l : list htmlnode) : bool :=
    match l with
    | [] => true
    | n :: t => parserTree n && parserForest t
    end in
  match node with
  | HtmlArray items => parserForest items
  | HtmlNode cs a _ g =>
      match g, a with
      | Some _, None => false
      | _, _ => true
      end
      && match cs with
         | Some l => parserForest l
         | None => true
         end
  end.

(** The nodes of a program tree in the order of a depth-first walk. *)
Fixpoint preorder (node : tsnode) : list value :=
  let fix forest (l : list tsnode) : list value :=
    match l with
    | [] => []
    | n :: t => preorder n ++ forest t
    end in
  match node with
  | TsNode self children => self :: forest children
  end.

(** The paths of the files named by a listed entry, or below it, whose
    names pass [suffix], in the order of a depth-first walk. *)
Fixpoint filesOf (suffix : jsstring -> bool) (currentPath : jsstring) (entry : dirent)
  : list jsstring :=
  let fix below (path : jsstring) (l : list dirent) : list jsstring :=
    match l with
    | [] => []
    | e :: t => filesOf suffix path e ++ below path t
    end in
  match entry with
  | File n => if suffix n then [resolveChild currentPath n] else []
  | Directory n sub => below (resolveChild currentPath n) sub
  | Other _ => []
  end.

Definition filesBelow (suffix : jsstring -> bool) (currentPath : jsstring)
  (entries : list dirent) : list jsstring :=
  flat_map (filesOf suffix currentPath) entries.

Definition isHtml (name : jsstring) : bool := endsWith name (str ".html").

Definition isTs (name : jsstring) : bool := endsWith name (str ".ts").

(** The files still to be found from a queue of directories, and the
    number of directories still to be read. *)
Definition pending (suffix : jsstring -> bool) (queue : list (jsstring * list dirent))
  : list jsstring :=
  flat_map (fun pe => filesBelow suffix (fst pe) (snd pe)) queue.

Definition directoriesIn (entries : list dirent) : nat :=
  fold_right (fun e acc => (directories e + acc)%nat) O entries.

Definition queued (queue : list (jsstring * list dirent)) : nat :=
  fold_right (fun pe acc => (S (directoriesIn (snd pe)) + acc)%nat) O queue.

(** A primitive value: [Set] compares two of them by what they are. *)
Definition primitive (v : value) : bool :=
  match v with
  | VArr _ | VObj _ => false
  | _ => true
  end.

Definition isString (v : value) : bool :=
  match v with
  | VStr _ => true
  | _ => false
  end.

(** A segment that names a property of an object and nothing else: not a
    name that [_.set] refuses, not the name of a member that objects
    inherit, not [length] and not an array index. *)
Definition plainSegment (segment : jsstring) : bool :=
  negb (Lodash.reservedKey segment)
  && negb (existsb (JsString.eqb segment) objectMembers)
  && negb (JsString.eqb segment (str "length"))
  && negb (Lodash.isIndex segment).



(** A plain segment written without a dot: a candidate of one segment. *)
Definition plainName (segment : jsstring) : bool :=
  plainSegment segment && negb (existsb (Ascii.eqb "."%char) segment).





End Coverage.

(* ================================================================== *)
(** * The extractors as runs on a store of arrays *)
(* ================================================================== *)

(** The arrays that the program shares and changes in place.  An array is
    known by its address; the store says what each address holds.  A new
    array takes the next free address, and no array is ever freed. *)
Module Arrays.

Definition address := nat.

Definition store (A : Type) : Type := list (list A).

Definition read {A : Type} (s : store A) (array : address) : option (list A) :=
  nth_error s array.

(** The store in which [array] holds [items]. *)
Fixpoint write {A : Type} (s : store A) (array : address) (items : list A) : store A :=
  match s, array with
  | [], _ => []
  | _ :: rest, O => items :: rest
  | a :: rest, S array' => a :: write rest array' items
  end.

(** A new array that holds [items], and the store that has it. *)
Definition create {A : Type} (s : store A) (items : list A) : address * store A :=
  (List.length s, s ++ [items]).

End Arrays.

(** [parseHTMLAst] as the script runs it: [trees] is an array of the store,
    the queue [nodesToIterate] and [results] are arrays that the call
    creates, [shift] and [push] change them in place.  The nodes and their
    [childNodes] are only read. *)
Module MarkupRun.
Import JsString JsValue Markup Arrays.

Record memory : Type := {
  nodeArrays : store htmlnode;
  keyArrays : store jsstring
}.

(** A step of a run: from a memory to a result and the memory after it, or
    to an exception. *)
Definition run (A : Type) : Type := memory -> outcome (A * memory).

Definition ret {A : Type} (a : A) : run A := fun m => Ok (a, m).

Definition andThen {A B : Type} (r : run A) (k : A -> run B) : run B :=
  fun m => am <- r m ;; k (fst am) (snd am).

Notation "x <~ r ;; k" := (andThen r (fun x => k))
  (at level 61, r at next level, right associativity).

Notation "r ;;; k" := (andThen r (fun _ => k))
  (at level 61, right associativity).

(** A computation that does not touch the memory. *)
Definition lift {A : Type} (o : outcome A) : run A := fun m => a <- o ;; Ok (a, m).

Definition outOfFuel {A : Type} : run A := fun _ => OutOfFuel.

(** What an array of nodes holds; an address that names no array is outside
    the model. *)
Definition nodesOf (array : address) : run (list htmlnode) :=
  fun m => match read (nodeArrays m) array with
           | Some items => Ok (items, m)
           | None => Unmodelled
           end.

Definition keysOf (array : address) : run (list jsstring) :=
  fun m => match read (keyArrays m) array with
           | Some items => Ok (items, m)
           | None => Unmodelled
           end.

(** [const results = []]. *)
Definition newKeys : run address :=
  fun m => let (array, s) := create (keyArrays m) [] in
           Ok (array, {| nodeArrays := nodeArrays m; keyArrays := s |}).

(** [[...trees]]: a new array with the elements of [trees]. *)
Definition spread (trees : address) : run address :=
  items <~ nodesOf trees ;;
  fun m => let (array, s) := create (nodeArrays m) items in
           Ok (array, {| nodeArrays := s; keyArrays := keyArrays m |}).

(** [array.shift()] on an array that is not empty. *)
Definition shift (array : address) : run htmlnode :=
  items <~ nodesOf array ;;
  match items with
  | [] => fun _ => Unmodelled
  | first :: rest =>
      fun m => Ok (first, {| nodeArrays := write (nodeArrays m) array rest;
                             keyArrays := keyArrays m |})
  end.

(** [array.push(...nodes)]. *)
Definition pushNodes (array : address) (nodes : list htmlnode) : run unit :=
  items <~ nodesOf array ;;
  fun m => Ok (tt, {| nodeArrays := write (nodeArrays m) array (items ++ nodes);
                      keyArrays := keyArrays m |}).

Definition pushKeys (array : address) (keys : list jsstring) : run unit :=
  items <~ keysOf array ;;
  fun m => Ok (tt, {| nodeArrays := nodeArrays m;
                      keyArrays := write (keyArrays m) array (items ++ keys) |}).

(** The [while (nodesToIterate.length)] loop.  For a node that is no array
    and has no child nodes [pushedNodes] is empty, and the [push] leaves the
    queue as it is. *)
Fixpoint parseLoop (fuel : nat) (nodesToIterate results : address) : run unit :=
  queue <~ nodesOf nodesToIterate ;;
  match queue with
  | [] => ret tt
  | _ :: _ =>
      match fuel with
      | O => outOfFuel
      | S fuel' =>
          currentNode <~ shift nodesToIterate ;;
          pushNodes nodesToIterate (pushedNodes currentNode) ;;;
          (if nonEmpty (rawAttrs currentNode) || nonEmpty (rawText currentNode) then
             attrValue <~ lift (getAttributeTranslation currentNode) ;;
             textValue <~ lift (getTextTranslation currentNode) ;;
             pushKeys results (attrValue ++ textValue)
           else ret tt) ;;;
          parseLoop fuel' nodesToIterate results
      end
  end.

(** [parseHTMLAst(trees)]; it returns the array [results].  The fuel of the
    loop is the number of nodes and arrays below the queue. *)
Definition parseHTMLAst (trees : address) : run address :=
  results <~ newKeys ;;
  nodesToIterate <~ spread trees ;;
  queue <~ nodesOf nodesToIterate ;;
  parseLoop (sizes queue) nodesToIterate results ;;;
  ret results.

End MarkupRun.

(** [parseTSAst] as the script runs it: [files] is an array of the store
    (of the root that [createTsAST] returns for each file), [parseResults]
    is an array that the call creates and on which every call of
    [parseFiles] pushes. *)
Module ProgramRun.
Import JsString JsValue Program Arrays.

Record memory : Type := {
  rootArrays : store tsnode;
  valueArrays : store value
}.

Definition run (A : Type) : Type := memory -> outcome (A * memory).

Definition ret {A : Type} (a : A) : run A := fun m => Ok (a, m).

Definition andThen {A B : Type} (r : run A) (k : A -> run B) : run B :=
  fun m => am <- r m ;; k (fst am) (snd am).

Notation "x <~ r ;; k" := (andThen r (fun x => k))
  (at level 61, r at next level, right associativity).

Notation "r ;;; k" := (andThen r (fun _ => k))
  (at level 61, right associativity).

Definition lift {A : Type} (o : outcome A) : run A := fun m => a <- o ;; Ok (a, m).

Definition rootsOf (array : address) : run (list tsnode) :=
  fun m => match read (rootArrays m) array with
           | Some items => Ok (items, m)
           | None => Unmodelled
           end.

Definition valuesOf (array : address) : run (list value) :=
  fun m => match read (valueArrays m) array with
           | Some items => Ok (items, m)
           | None => Unmodelled
           end.

(** [const parseResults = []]. *)
Definition newValues : run address :=
  fun m => let (array, s) := create (valueArrays m) [] in
           Ok (array, {| rootArrays := rootArrays m; valueArrays := s |}).

(** [array.push(...values)]. *)
Definition pushValues (array : address) (values : list value) : run unit :=
  items <~ valuesOf array ;;
  fun m => Ok (tt, {| rootArrays := rootArrays m;
                      valueArrays := write (valueArrays m) array (items ++ values) |}).

(** [parseFiles(node)] in the scope of [parseResults]. *)
Fixpoint parseFiles (parseResults : address) (node : tsnode) : run unit :=
  match node with
  | TsNode self children =>
      translationKeys <~ lift (keysAt self) ;;
      pushValues parseResults translationKeys ;;;
      (fix forEachChild (nodes : list tsnode) : run unit :=
         match nodes with
         | [] => ret tt
         | child :: rest => parseFiles parseResults child ;;; forEachChild rest
         end) children
  end.

(** [files.forEach(...)]. *)
Fixpoint forEachRoot (parseResults : address) (roots : list tsnode) : run unit :=
  match roots with
  | [] => ret tt
  | rootNode :: rest => parseFiles parseResults rootNode ;;; forEachRoot parseResults rest
  end.

(** [parseTSAst(files)]; it returns the array [parseResults]. *)
Definition parseTSAst (files : address) : run address :=
  parseResults <~ newValues ;;
  roots <~ rootsOf files ;;
  forEachRoot parseResults roots ;;;
  ret parseResults.

End ProgramRun.

(* ================================================================== *)
(** * Properties of the string operations *)
(* ================================================================== *)

Module JsStringFacts.
Import JsString.

Lemma jsstring_eqb_eq (a b : jsstring) : JsString.eqb a b = true <-> a = b.
Proof.
  revert b; induction a as [|x a IH]; intros [|y b]; simpl; split; intro H;
    try reflexivity; try discriminate.
  - apply andb_true_iff in H as [Hxy Hab].
    apply Ascii.eqb_eq in Hxy. apply IH in Hab. now subst.
  - injection H as -> ->. rewrite Ascii.eqb_refl. simpl. now apply IH.
Qed.

Lemma jsstring_eqb_refl (a : jsstring) : JsString.eqb a a = true.
Proof. now apply jsstring_eqb_eq. Qed.

Lemma jsstring_eqb_neq (a b : jsstring) : JsString.eqb a b = false <-> a <> b.
Proof.
  split.
  - intros H E. apply jsstring_eqb_eq in E. congruence.
  - intro H. destruct (JsString.eqb a b) eqn:E; [|reflexivity].
    apply jsstring_eqb_eq in E. contradiction.
Qed.

Lemma len_nonneg (s : jsstring) : 0 <= len s.
Proof. unfold len; lia. Qed.

Lemma len_app (a b : jsstring) : len (a ++ b) = len a + len b.
Proof. unfold len. rewrite length_app. lia. Qed.

Lemma len_cons (c : ascii) (s : jsstring) : len (c :: s) = 1 + len s.
Proof. unfold len. simpl List.length. lia. Qed.

Lemma startsWith_len (needle s : jsstring) :
  startsWith needle s = true -> len needle <= len s.
Proof.
  revert s; induction needle as [|a needle IH]; intros s H.
  - apply len_nonneg.
  - destruct s as [|b s]; [discriminate|].
    simpl in H. apply andb_true_iff in H as [_ H].
    apply IH in H. rewrite !len_cons. lia.
Qed.

Lemma indexOf_from_bounds (needle s : jsstring) (i : Z) :
  indexOf_from needle s i = -1
  \/ (i <= indexOf_from needle s i /\ indexOf_from needle s i + len needle <= i + len s).
Proof.
  revert i; induction s as [|c s IH]; intro i; simpl.
  - destruct (startsWith needle []) eqn:E; [|now left].
    right. apply startsWith_len in E. lia.
  - destruct (startsWith needle (c :: s)) eqn:E.
    + right. apply startsWith_len in E. lia.
    + destruct (IH (i + 1)) as [H|H]; [now left|right].
      rewrite len_cons. lia.
Qed.

Lemma indexOf_bounds (s needle : jsstring) :
  indexOf s needle <> -1 ->
  0 <= indexOf s needle /\ indexOf s needle + len needle <= len s.
Proof.
  unfold indexOf. intro H.
  destruct (indexOf_from_bounds needle s 0) as [E|E]; [contradiction|lia].
Qed.

(** [substring] with in-range, ordered indices is a slice. *)
Lemma substring_slice (s : jsstring) (a b : Z) :
  0 <= a <= b -> b <= len s ->
  substring s a (Some b) = firstn (Z.to_nat (b - a)) (skipn (Z.to_nat a) s).
Proof.
  intros Hab Hb. unfold substring, clamp.
  replace (Z.min (Z.max a 0) (len s)) with a by lia.
  replace (Z.min (Z.max b 0) (len s)) with b by lia.
  replace (Z.min a b) with a by lia.
  replace (Z.max a b) with b by lia.
  reflexivity.
Qed.

Lemma substring_from (s : jsstring) (a : Z) :
  0 <= a <= len s -> substring s a None = skipn (Z.to_nat a) s.
Proof.
  intros Ha. unfold substring, clamp.
  replace (Z.min (Z.max a 0) (len s)) with a by lia.
  replace (Z.min a (len s)) with a by lia.
  replace (Z.max a (len s)) with (len s) by lia.
  apply firstn_all2. rewrite length_skipn. unfold len. lia.
Qed.

Lemma substring_middle (pre mid post : jsstring) :
  substring (pre ++ mid ++ post) (len pre) (Some (len pre + len mid)) = mid.
Proof.
  rewrite substring_slice.
  - replace (len pre + len mid - len pre) with (len mid) by lia.
    unfold len. rewrite !Nat2Z.id.
    rewrite skipn_app, skipn_all, Nat.sub_diag. simpl.
    rewrite firstn_app, firstn_all, Nat.sub_diag. simpl. apply app_nil_r.
  - pose proof (len_nonneg pre). pose proof (len_nonneg mid). lia.
  - rewrite !len_app. pose proof (len_nonneg post). lia.
Qed.

Lemma substring_empty_swap (s : jsstring) : substring s 0 (Some (-1)) = [].
Proof.
  unfold substring, clamp. pose proof (len_nonneg s).
  replace (Z.min (Z.max 0 0) (len s)) with 0 by lia.
  replace (Z.min (Z.max (-1) 0) (len s)) with 0 by lia.
  reflexivity.
Qed.

End JsStringFacts.

(* ================================================================== *)
(** * Searching backwards for a quote *)
(* ================================================================== *)

Module QuoteSearch.
Import JsString JsStringFacts Vocabulary.

Lemma startsWith_single (c : ascii) (s : jsstring) :
  startsWith [c] s = headIs (Ascii.eqb c) s.
Proof. destruct s as [|b s]; simpl; [reflexivity|apply andb_true_r]. Qed.

Lemma scanLast_ext (p q : jsstring -> bool) (s : jsstring) (i limit best : Z) :
  (forall t, p t = q t) -> scanLast p s i limit best = scanLast q s i limit best.
Proof.
  intro H. revert i best; induction s as [|c s IH]; intros i best; simpl.
  - now rewrite H.
  - rewrite H. apply IH.
Qed.

Lemma scanLast_max (p q : jsstring -> bool) (s : jsstring) (i limit b1 b2 : Z) :
  b1 < i -> b2 < i ->
  Z.max (scanLast p s i limit b1) (scanLast q s i limit b2)
  = scanLast (fun t => p t || q t) s i limit (Z.max b1 b2).
Proof.
  revert i b1 b2; induction s as [|c s IH]; intros i b1 b2 H1 H2; simpl.
  - destruct (i <=? limit), (p []), (q []); simpl; lia.
  - rewrite IH.
    + f_equal. destruct (i <=? limit), (p (c :: s)), (q (c :: s)); simpl; lia.
    + destruct ((i <=? limit) && p (c :: s)); lia.
    + destruct ((i <=? limit) && q (c :: s)); lia.
Qed.

Lemma scanLast_beyond (p : jsstring -> bool) (s : jsstring) (i limit best : Z) :
  limit < i -> scanLast p s i limit best = best.
Proof.
  revert i; induction s as [|c s IH]; intros i H; simpl;
    replace (i <=? limit) with false by (symmetry; apply Z.leb_gt; lia); simpl.
  - reflexivity.
  - apply IH. lia.
Qed.

Lemma scanLast_skip (f : ascii -> bool) (mid rest : jsstring) (i limit best : Z) :
  Forall (fun c => f c = false) mid ->
  scanLast (headIs f) (mid ++ rest) i limit best
  = scanLast (headIs f) rest (i + len mid) limit best.
Proof.
  intro H. revert i; induction H as [|c mid Hc _ IH]; intro i.
  - simpl. f_equal. unfold len; simpl; lia.
  - simpl app. cbn [scanLast]. cbn [headIs]. rewrite Hc, andb_false_r.
    rewrite IH, len_cons. f_equal. lia.
Qed.

Lemma scanLast_none (f : ascii -> bool) (s : jsstring) (i limit best : Z) :
  Forall (fun c => f c = false) s -> scanLast (headIs f) s i limit best = best.
Proof.
  intro H. rewrite <- (app_nil_r s), scanLast_skip by assumption.
  simpl. now rewrite andb_false_r.
Qed.

(** The backward search stops at the last [f]-character at or before
    [limit]. *)
Lemma scanLast_hit (f : ascii -> bool) (pre mid rest : jsstring) (q : ascii)
  (i limit best : Z) :
  f q = true ->
  Forall (fun c => f c = false) mid ->
  i + len pre <= limit < i + len pre + 1 + len mid ->
  scanLast (headIs f) (pre ++ q :: mid ++ rest) i limit best = i + len pre.
Proof.
  intros Hq Hmid. revert i best; induction pre as [|c pre IH]; intros i best Hl.
  - simpl app. cbn [scanLast headIs]. rewrite Hq.
    change (len []) with 0 in *.
    replace (i <=? limit) with true by (symmetry; apply Z.leb_le; lia). simpl.
    rewrite scanLast_skip by assumption.
    rewrite scanLast_beyond by lia. lia.
  - simpl app. cbn [scanLast]. rewrite len_cons in *. rewrite IH by lia. lia.
Qed.

(** The [Math.max] of the two [lastIndexOf] is the backward search for a
    quote of either kind. *)
Lemma lastIndexOf_quotes (s : jsstring) (position : option Z) :
  Z.max (lastIndexOf s [squote] position) (lastIndexOf s [dquote] position)
  = scanLast (headIs isQuote) s 0 (searchLimit s position) (-1).
Proof.
  unfold lastIndexOf, searchLimit. change (len [squote]) with 1. change (len [dquote]) with 1.
  rewrite scanLast_max by lia.
  destruct position; apply scanLast_ext; intro t; rewrite !startsWith_single;
    destruct t; reflexivity.
Qed.

End QuoteSearch.

(* ================================================================== *)
(** * The pipe form: [extractTranslationsFromString] *)
(* ================================================================== *)

Module MarkupFacts.
Import JsString JsValue JsStringFacts Vocabulary QuoteSearch Markup.

Lemma replaceNewlines_id (s : jsstring) :
  Forall (fun c => isWhiteSpace c = false) s -> replaceNewlines s = s.
Proof.
  induction 1 as [|c s Hc _ IH]; [reflexivity|].
  unfold replaceNewlines in *. cbn [flat_map]. rewrite IH.
  destruct (Ascii.eqb c (ascii_of_nat 10)) eqn:E; [|reflexivity].
  apply Ascii.eqb_eq in E. subst c. discriminate.
Qed.

(** [prettifyKey] removes the white space and nothing else. *)
Lemma prettifyKey_removeWhiteSpace (key : jsstring) :
  prettifyKey key = removeWhiteSpace key.
Proof.
  unfold prettifyKey. apply replaceNewlines_id.
  unfold removeWhiteSpace. apply Forall_forall. intros c Hc.
  apply filter_In in Hc as [_ Hc]. now apply negb_true_iff.
Qed.

Lemma prettifyKey_no_space (key : jsstring) (c : ascii) :
  In c (prettifyKey key) -> isWhiteSpace c = false.
Proof.
  rewrite prettifyKey_removeWhiteSpace. unfold removeWhiteSpace.
  intro H. apply filter_In in H as [_ H]. now apply negb_true_iff.
Qed.

(** ** One turn of the loop *)

(** With no quote before the marker, the candidate is the marker text. *)
Lemma translationKeyAt_unquoted (currentString : jsstring) (i : Z) :
  Forall (fun c => isQuote c = false) (trim (substring currentString 0 (Some i))) ->
  translationKeyAt currentString i
  = markupMarker (trim (substring currentString 0 (Some i))).
Proof.
  intro H. unfold translationKeyAt.
  set (attrs := trim (substring currentString 0 (Some i))) in *.
  rewrite (lastIndexOf_quotes attrs None).
  rewrite (scanLast_none isQuote attrs) by assumption.
  rewrite (lastIndexOf_quotes attrs (Some (-1 - 1))).
  rewrite (scanLast_none isQuote attrs) by assumption.
  change (-1 + 1) with 0. rewrite substring_empty_swap.
  change (trim []) with (@nil ascii).
  unfold markupMarker. now rewrite prettifyKey_removeWhiteSpace.
Qed.

(** With two quotes, of either kind, as the last two quotes before the
    marker, the candidate is the trimmed text between them, or the marker
    text when nothing is left of it. *)
Lemma translationKeyAt_quoted (currentString pre mid post : jsstring) (q1 q2 : ascii) (i : Z) :
  trim (substring currentString 0 (Some i)) = pre ++ q1 :: mid ++ q2 :: post ->
  isQuote q1 = true -> isQuote q2 = true ->
  Forall (fun c => isQuote c = false) mid ->
  Forall (fun c => isQuote c = false) post ->
  translationKeyAt currentString i
  = match trim mid with
    | [] => markupMarker (pre ++ q1 :: mid ++ q2 :: post)
    | translationKey => translationKey
    end.
Proof.
  intros Hattrs Hq1 Hq2 Hmid Hpost. unfold translationKeyAt.
  rewrite Hattrs. set (attrs := pre ++ q1 :: mid ++ q2 :: post).
  pose proof (len_nonneg pre) as Hpre0. pose proof (len_nonneg mid) as Hmid0.
  pose proof (len_nonneg post) as Hpost0.
  assert (Hlen : len attrs = len pre + 1 + len mid + 1 + len post).
  { unfold attrs. rewrite len_app, len_cons, len_app, len_cons. lia. }
  assert (Hend : Z.max (lastIndexOf attrs [squote] None) (lastIndexOf attrs [dquote] None)
                 = len pre + 1 + len mid).
  { rewrite lastIndexOf_quotes. unfold searchLimit.
    replace attrs with ((pre ++ q1 :: mid) ++ q2 :: post ++ [])
      by (unfold attrs; rewrite app_nil_r, <- app_assoc; reflexivity).
    rewrite scanLast_hit; try assumption.
    - rewrite len_app, len_cons. lia.
    - rewrite app_nil_r, <- app_assoc. simpl app. fold attrs.
      rewrite len_app, len_cons. lia. }
  rewrite Hend.
  assert (Hstart : Z.max (lastIndexOf attrs [squote] (Some (len pre + 1 + len mid - 1)))
                         (lastIndexOf attrs [dquote] (Some (len pre + 1 + len mid - 1)))
                   = len pre).
  { rewrite lastIndexOf_quotes. unfold searchLimit, attrs.
    rewrite scanLast_hit; try assumption; [lia|]. fold attrs. lia. }
  rewrite Hstart.
  replace attrs with ((pre ++ [q1]) ++ mid ++ q2 :: post)
    by (unfold attrs; rewrite <- app_assoc; reflexivity).
  replace (len pre + 1) with (len (pre ++ [q1])) by (rewrite len_app; reflexivity).
  rewrite substring_middle.
  rewrite <- app_assoc. simpl app. fold attrs.
  unfold markupMarker. rewrite prettifyKey_removeWhiteSpace. reflexivity.
Qed.

(** ** The loop *)

Lemma rest_shorter (s : jsstring) :
  indexOf s translateKeyword <> -1 ->
  (List.length (substring s (indexOf s translateKeyword + len translateKeyword) None)
   < List.length s)%nat.
Proof.
  intro H. apply indexOf_bounds in H. change (len translateKeyword) with 11 in *.
  rewrite substring_from by lia. rewrite length_skipn. unfold len in *. lia.
Qed.

Lemma bind_assoc {A B C : Type} (m : outcome A) (f : A -> outcome B) (g : B -> outcome C) :
  bind (bind m f) g = bind m (fun a => bind (f a) g).
Proof. destruct m; reflexivity. Qed.

Lemma bind_ext {A B : Type} (m : outcome A) (f g : A -> outcome B) :
  (forall a, f a = g a) -> bind m f = bind m g.
Proof. intro H. destruct m; simpl; auto. Qed.

(** The result of the loop does not depend on the fuel, once there is as
    much of it as code units; the results found so far stay in front. *)
Lemma extractLoop_fuel (s : jsstring) :
  forall (fuel : nat) (results : list jsstring),
    (List.length s <= fuel)%nat ->
    extractLoop fuel s results
    = (found <- extractLoop (List.length s) s [] ;; Ok (results ++ found)).
Proof.
  remember (List.length s) as n eqn:Hn. revert s Hn.
  induction n as [n IH] using lt_wf_ind. intros s Hn fuel results Hfuel.
  destruct (Z.eq_dec (indexOf s translateKeyword) (-1)) as [E|E].
  - destruct fuel, n; simpl; rewrite E; simpl; now rewrite app_nil_r.
  - pose proof (rest_shorter s E) as Hlt.
    apply Z.eqb_neq in E.
    destruct fuel as [|fuel]; [lia|]. destruct n as [|n]; [lia|].
    simpl. rewrite E.
    set (rest := substring s (indexOf s translateKeyword + len translateKeyword) None) in *.
    rewrite (IH (List.length rest)) with (s := rest) (fuel := fuel) by (try reflexivity; lia).
    rewrite (IH (List.length rest)) with (s := rest) (fuel := n) by (try reflexivity; lia).
    rewrite bind_assoc. apply bind_ext. intro found. simpl.
    now rewrite <- app_assoc.
Qed.

(** The loop, unfolded once: no marker, no candidate; otherwise the
    candidate of the first marker, then those of the text after it. *)
Lemma extractTranslationsFromString_unfold (value : jsstring) :
  extractTranslationsFromString value
  = if indexOf value translateKeyword =? -1 then Ok []
    else found <- extractTranslationsFromString (afterMarker value) ;;
         Ok (translationKeyAt value (indexOf value translateKeyword) :: found).
Proof.
  unfold afterMarker, extractTranslationsFromString.
  destruct (indexOf value translateKeyword =? -1) eqn:E.
  - destruct (List.length value); simpl; now rewrite E.
  - apply Z.eqb_neq in E. pose proof (rest_shorter value E) as Hlt.
    apply Z.eqb_neq in E.
    destruct (List.length value) as [|n] eqn:Hn; [lia|].
    simpl. rewrite E.
    rewrite extractLoop_fuel by lia. reflexivity.
Qed.

(** The loop always comes to an end, with a list of candidates. *)
Lemma extractTranslationsFromString_total (value : jsstring) :
  exists found, extractTranslationsFromString value = Ok found.
Proof.
  remember (List.length value) as n eqn:Hn. revert value Hn.
  induction n as [n IH] using lt_wf_ind. intros value Hn.
  rewrite extractTranslationsFromString_unfold.
  destruct (indexOf value translateKeyword =? -1) eqn:E; [now exists []|].
  apply Z.eqb_neq in E. pose proof (rest_shorter value E) as Hlt.
  fold (afterMarker value) in Hlt.
  destruct (IH _ ltac:(subst n; exact Hlt) _ eq_refl) as [found ->].
  simpl. eauto.
Qed.

End MarkupFacts.

(* ================================================================== *)
(** * The markup extractor: the pipe form and the direct attribute *)
(* ================================================================== *)

Import JsString JsValue JsStringFacts Vocabulary QuoteSearch Markup MarkupFacts.

(** The text [{{ "it's" | translate }}], with its two double quotes. *)
Lemma mixed_quotes_text :
  str "{{ " ++ dquote :: str "it's" ++ dquote :: str " | translate }}"
  = [ "{"; "{"; " "; dquote; "i"; "t"; "'"; "s"; dquote; " ";
      "|"; " "; "t"; "r"; "a"; "n"; "s"; "l"; "a"; "t"; "e"; " "; "}"; "}" ]%char.
Proof. reflexivity. Qed.

(** C5, as stated, fails: in [{{ "it's" | translate }}] the rightmost quote
    is the closing double quote and the nearest double quote before it is the
    opening one, so the text between quotes of the same kind is [it's]; the
    program stops at the apostrophe, the nearest quote of either kind, and
    emits [s]. *)
Lemma pipe_key_same_kind_counterexample :
  let value := str "{{ " ++ dquote :: str "it's" ++ dquote :: str " | translate }}" in
  specLastQuotedSegment (beforeMarker value) = Some (str "it's")
  /\ extractTranslationsFromString value = Ok [str "s"]
  /\ str "s" <> str "it's".
Proof.
  cbv zeta. split; [|split].
  - vm_compute. reflexivity.
  - vm_compute. reflexivity.
  - discriminate.
Qed.

(** C5, amended: for every occurrence of [| translate], when the trimmed
    text before it (from the end of the previous occurrence) ends with a
    quote [q2], possibly followed by text without quotes, and has a quote
    [q1] of either kind before [q2] with no quote in between, the candidate
    emitted for this occurrence is the text strictly between [q1] and [q2],
    trimmed, provided something is left of it; the scan then goes on after
    the marker. *)
Theorem pipe_key_between_last_two_quotes
  (value pre mid post : jsstring) (q1 q2 : ascii) :
  indexOf value translateKeyword <> -1 ->
  beforeMarker value = pre ++ q1 :: mid ++ q2 :: post ->
  isQuote q1 = true -> isQuote q2 = true ->
  Forall (fun c => isQuote c = false) mid ->
  Forall (fun c => isQuote c = false) post ->
  trim mid <> [] ->
  extractTranslationsFromString value
  = (found <- extractTranslationsFromString (afterMarker value) ;; Ok (trim mid :: found)).
Proof.
  unfold beforeMarker, afterMarker. intros Hidx Hattrs Hq1 Hq2 Hmid Hpost Hkey.
  rewrite extractTranslationsFromString_unfold.
  apply Z.eqb_neq in Hidx. rewrite Hidx.
  rewrite (translationKeyAt_quoted value pre mid post q1 q2) by assumption.
  destruct (trim mid); [contradiction|reflexivity].
Qed.

Lemma pipe_key_between_last_two_quotes_witness :
  extractTranslationsFromString (str "{{ 'nav.home' | translate }} {{ 'nav.end' | translate }}")
  = (found <- extractTranslationsFromString (str " }} {{ 'nav.end' | translate }}") ;;
     Ok (str "nav.home" :: found)).
Proof.
  apply (pipe_key_between_last_two_quotes
           (str "{{ 'nav.home' | translate }} {{ 'nav.end' | translate }}")
           (str "{{ ") (str "nav.home") [] squote squote).
  - vm_compute. discriminate.
  - vm_compute. reflexivity.
  - reflexivity.
  - reflexivity.
  - repeat constructor.
  - constructor.
  - vm_compute. discriminate.
Defined.

(** C7, as stated, fails: the text [{{ user's | translate }}] has one
    quote before the marker, hence no quoted segment, and yet yields no
    marker: the candidate is the text from the start up to that quote. *)
Lemma lone_quote_counterexample :
  let value := str "{{ user's | translate }}" in
  List.length (filter isQuote (beforeMarker value)) = 1%nat
  /\ specLastQuotedSegment (beforeMarker value) = None
  /\ getTextTranslation (textNode value) = Ok [str "{{ user"]
  /\ startsWith UNABLE_TO_RESOLVE_VALUE (str "{{ user") = false.
Proof. cbv zeta. repeat split; vm_compute; reflexivity. Qed.

(** C7, amended: the text [{{ 'nav.home' | translate }}] yields the one
    candidate [nav.home]; the text [{{ | translate }}] yields the marker
    [UNABLE_TO_RESOLVE_VALUE: {{]; and in general, when the trimmed text
    before a [| translate] has no quote at all, or only white space between
    its last two quotes, the candidate emitted for that occurrence is the
    marker text followed by the text before the marker with its white space
    removed. *)
Theorem pipe_form_key_or_marker :
  getTextTranslation (textNode (str "{{ 'nav.home' | translate }}")) = Ok [str "nav.home"]
  /\ getTextTranslation (textNode (str "{{ | translate }}"))
     = Ok [str "UNABLE_TO_RESOLVE_VALUE: {{"]
  /\ forall value : jsstring,
      indexOf value translateKeyword <> -1 ->
      (Forall (fun c => isQuote c = false) (beforeMarker value)
       \/ exists pre q1 mid q2 post,
            beforeMarker value = pre ++ q1 :: mid ++ q2 :: post
            /\ isQuote q1 = true /\ isQuote q2 = true
            /\ Forall (fun c => isQuote c = false) mid
            /\ Forall (fun c => isQuote c = false) post
            /\ trim mid = []) ->
      extractTranslationsFromString value
      = (found <- extractTranslationsFromString (afterMarker value) ;;
         Ok ((UNABLE_TO_RESOLVE_VALUE ++ str ": " ++ removeWhiteSpace (beforeMarker value))
               :: found)).
Proof.
  split; [vm_compute; reflexivity|]. split; [vm_compute; reflexivity|].
  unfold beforeMarker, afterMarker. intros value Hidx Hcase.
  rewrite extractTranslationsFromString_unfold.
  apply Z.eqb_neq in Hidx. rewrite Hidx.
  destruct Hcase as [Hnone | (pre & q1 & mid & q2 & post & Hsplit & Hq1 & Hq2 & Hmid & Hpost
                              & Hempty)].
  - rewrite translationKeyAt_unquoted by assumption. reflexivity.
  - rewrite (translationKeyAt_quoted value pre mid post q1 q2) by assumption.
    rewrite Hempty, <- Hsplit. reflexivity.
Qed.

Lemma pipe_form_key_or_marker_witness :
  extractTranslationsFromString (str "{{ | translate }}")
  = (found <- extractTranslationsFromString (str " }}") ;;
     Ok ((UNABLE_TO_RESOLVE_VALUE ++ str ": " ++ removeWhiteSpace (str "{{")) :: found)).
Proof.
  apply (proj2 (proj2 pipe_form_key_or_marker) (str "{{ | translate }}")).
  - vm_compute. discriminate.
  - left. vm_compute. repeat constructor.
Defined.

(** C8: a node whose [translate] attribute has a non-empty value gives
    exactly that value, trimmed, as its one attribute candidate, and that is
    what the traversal adds to its results for the attributes of the node
    when it takes the node from the queue; the element with the attribute
    text [class="x" translate="greeting.hello"] gives exactly
    [greeting.hello], also through the whole traversal. *)
Theorem direct_attribute_yields_its_value :
  (forall (node : htmlnode) (getAttr : jsstring -> option jsstring) (translationKey : jsstring),
      getAttribute node = Some getAttr ->
      getAttr (str "translate") = Some translationKey ->
      translationKey <> [] ->
      getAttributeTranslation node = Ok [trim translationKey]
      /\ (nonEmpty (Markup.rawAttrs node) = true ->
          forall (fuel : nat) (rest : list htmlnode) (results : list jsstring),
            parseLoop (S fuel) (node :: rest) results
            = (textValue <- getTextTranslation node ;;
               parseLoop fuel (rest ++ pushedNodes node)
                         (results ++ [trim translationKey] ++ textValue))))
  /\ let rawAttrs := str "class=" ++ dquote :: str "x" ++ dquote
                     :: str " translate=" ++ dquote :: str "greeting.hello" ++ [dquote] in
     let node := element rawAttrs
                   [(str "class", str "x"); (str "translate", str "greeting.hello")] [] [] in
     getAttributeTranslation node = Ok [str "greeting.hello"]
     /\ parseHTMLAst [node] = Ok [str "greeting.hello"].
Proof.
  split.
  - intros node getAttr translationKey Hget Hattr Hne.
    assert (Hkey : getAttributeTranslation node = Ok [trim translationKey]).
    { unfold getAttributeTranslation. rewrite Hget, Hattr.
      destruct translationKey; [contradiction|reflexivity]. }
    split; [exact Hkey|].
    intros Hraw fuel rest results. cbn [parseLoop]. rewrite Hraw, Hkey. reflexivity.
  - split; vm_compute; reflexivity.
Qed.

Lemma direct_attribute_yields_its_value_witness :
  getAttributeTranslation
    (element (str "translate=' greeting.hello '")
             [(str "translate", str " greeting.hello ")] [] [])
  = Ok [trim (str " greeting.hello ")].
Proof.
  refine (proj1 (proj1 direct_attribute_yields_its_value
           (element (str "translate=' greeting.hello '")
                    [(str "translate", str " greeting.hello ")] [] [])
           (attribute [(str "translate", str " greeting.hello ")])
           (str " greeting.hello ") _ _ _)).
  - reflexivity.
  - reflexivity.
  - discriminate.
Defined.

(** C10: when the [translate] attribute of a node has a non-empty value, the
    attribute candidates are that value, trimmed, and nothing else, whatever
    the raw attribute string is (even a missing one, which the scan could not
    read): the raw attribute string is not scanned.  The scan of the raw
    attribute string gives the attribute candidates only when the attribute
    is absent or empty. *)
Theorem translate_attribute_skips_pipe_scan
  (childNodes : option (list htmlnode)) (rawText : option jsstring)
  (getAttr : jsstring -> option jsstring) :
  (forall translationKey : jsstring,
      getAttr (str "translate") = Some translationKey ->
      translationKey <> [] ->
      forall rawAttrs : option jsstring,
        getAttributeTranslation (HtmlNode childNodes rawAttrs rawText (Some getAttr))
        = Ok [trim translationKey])
  /\ (getAttr (str "translate") = None \/ getAttr (str "translate") = Some [] ->
      forall rawAttrs : jsstring,
        getAttributeTranslation (HtmlNode childNodes (Some rawAttrs) rawText (Some getAttr))
        = extractTranslationsFromString rawAttrs).
Proof.
  split.
  - intros translationKey Hattr Hne rawAttrs.
    unfold getAttributeTranslation, getAttribute. rewrite Hattr.
    destruct translationKey; [contradiction|reflexivity].
  - intros [Hattr|Hattr] rawAttrs; unfold getAttributeTranslation, getAttribute;
      rewrite Hattr; reflexivity.
Qed.

Lemma translate_attribute_skips_pipe_scan_witness :
  (forall rawAttrs : option jsstring,
      getAttributeTranslation
        (HtmlNode (Some []) rawAttrs (Some [])
                  (Some (attribute [(str "translate", str "a.b");
                                    (str "title", str "{{ 'c.d' | translate }}")])))
      = Ok [trim (str "a.b")])
  /\ getAttributeTranslation
       (HtmlNode (Some []) (Some (str "title={{ 'c.d' | translate }}")) (Some [])
                 (Some (attribute [(str "title", str "{{ 'c.d' | translate }}")])))
     = extractTranslationsFromString (str "title={{ 'c.d' | translate }}").
Proof.
  split.
  - apply (proj1 (translate_attribute_skips_pipe_scan (Some []) (Some [])
             (attribute [(str "translate", str "a.b");
                         (str "title", str "{{ 'c.d' | translate }}")]))
             (str "a.b")).
    + reflexivity.
    + discriminate.
  - apply (proj2 (translate_attribute_skips_pipe_scan (Some []) (Some [])
             (attribute [(str "title", str "{{ 'c.d' | translate }}")]))).
    left. reflexivity.
Defined.

(* ================================================================== *)
(** * The markup extractor: the traversal *)
(* ================================================================== *)

Module TraversalFacts.
Import JsString JsValue Vocabulary Markup MarkupFacts.

Lemma sizes_app (a b : list htmlnode) : sizes (a ++ b) = (sizes a + sizes b)%nat.
Proof.
  unfold sizes. induction a as [|n a IH]; simpl; [reflexivity|].
  rewrite IH. apply Nat.add_assoc.
Qed.

(** A queue entry counts for one more than what it pushes on the queue. *)
Lemma size_pushedNodes (node : htmlnode) : size node = S (sizes (pushedNodes node)).
Proof.
  assert (H : forall l : list htmlnode,
             (fix sizes (l : list htmlnode) : nat :=
                match l with
                | [] => O
                | n :: t => (size n + sizes t)%nat
                end) l = sizes l).
  { induction l as [|n l IH]; [reflexivity|]. unfold sizes in *. simpl. now rewrite IH. }
  destruct node as [items|[[|c cs]|] a t g]; simpl; try rewrite H; reflexivity.
Qed.

Lemma sizes_queue (node : htmlnode) (rest : list htmlnode) :
  S (sizes (rest ++ pushedNodes node)) = sizes (node :: rest).
Proof.
  rewrite sizes_app. change (sizes (node :: rest)) with (size node + sizes rest)%nat.
  rewrite size_pushedNodes. lia.
Qed.

(** The result of the traversal does not depend on the fuel, once there is
    as much of it as entries to visit. *)
Lemma parseLoop_fuel (fuel1 : nat) :
  forall (fuel2 : nat) (queue : list htmlnode) (results : list jsstring),
    (sizes queue <= fuel1)%nat -> (sizes queue <= fuel2)%nat ->
    parseLoop fuel1 queue results = parseLoop fuel2 queue results.
Proof.
  induction fuel1 as [|fuel1 IH]; intros fuel2 [|node rest] results H1 H2.
  - destruct fuel2; reflexivity.
  - rewrite <- sizes_queue in H1. lia.
  - destruct fuel2; reflexivity.
  - pose proof (sizes_queue node rest) as Hq.
    destruct fuel2 as [|fuel2]; [lia|]. simpl.
    destruct (nonEmpty (rawAttrs node) || nonEmpty (rawText node)).
    + destruct (getAttributeTranslation node); simpl; try reflexivity.
      destruct (getTextTranslation node); simpl; try reflexivity.
      apply IH; lia.
    + apply IH; lia.
Qed.

Lemma getAttributeTranslation_ends (node : htmlnode) :
  getAttributeTranslation node <> OutOfFuel.
Proof.
  unfold getAttributeTranslation.
  destruct (getAttribute node) as [getAttr|]; [|discriminate].
  destruct (getAttr (str "translate")) as [[|c k]|]; try discriminate;
    (destruct (rawAttrs node) as [attrs|]; [|discriminate];
     destruct (extractTranslationsFromString_total attrs) as [found ->]; discriminate).
Qed.

Lemma getTextTranslation_ends (node : htmlnode) :
  getTextTranslation node <> OutOfFuel.
Proof.
  unfold getTextTranslation.
  destruct (rawText node) as [[|c text]|]; try discriminate.
  destruct (includes (c :: text) (str "translate")); [|discriminate].
  destruct (extractTranslationsFromString_total (c :: text)) as [found ->]; discriminate.
Qed.

(** The traversal always comes to an end. *)
Lemma parseLoop_ends (fuel : nat) :
  forall (queue : list htmlnode) (results : list jsstring),
    (sizes queue <= fuel)%nat -> parseLoop fuel queue results <> OutOfFuel.
Proof.
  induction fuel as [|fuel IH]; intros [|node rest] results H; try discriminate.
  - rewrite <- sizes_queue in H. lia.
  - pose proof (sizes_queue node rest) as Hq. simpl.
    destruct (nonEmpty (rawAttrs node) || nonEmpty (rawText node)).
    + pose proof (getAttributeTranslation_ends node) as Ha.
      pose proof (getTextTranslation_ends node) as Ht.
      destruct (getAttributeTranslation node); simpl; try discriminate; try contradiction.
      destruct (getTextTranslation node); simpl; try discriminate; try contradiction.
      apply IH; lia.
    + apply IH; lia.
Qed.

(** What the program reads of a node is the same in two trees it cannot
    tell apart. *)
Lemma sameTree_reads (node1 node2 : htmlnode) :
  sameTree node1 node2 ->
  rawAttrs node1 = rawAttrs node2
  /\ rawText node1 = rawText node2
  /\ getAttributeTranslation node1 = getAttributeTranslation node2
  /\ getTextTranslation node1 = getTextTranslation node2
  /\ Forall2 sameTree (pushedNodes node1) (pushedNodes node2).
Proof.
  assert (Hattr : forall c1 c2 a t g1 g2, sameMethod g1 g2 ->
            getAttributeTranslation (HtmlNode c1 a t g1)
            = getAttributeTranslation (HtmlNode c2 a t g2)).
  { intros c1 c2 a t [f1|] [f2|] Hg; simpl in Hg; try contradiction; [|reflexivity].
    unfold getAttributeTranslation. simpl. now rewrite Hg. }
  intros [items1 items2 Hitems | a t g1 g2 Hg | cs1 cs2 a t g1 g2 Hcs Hg].
  - repeat split; try reflexivity. exact Hitems.
  - repeat split; try reflexivity; [now apply Hattr | constructor].
  - repeat split; try reflexivity; [now apply Hattr|].
    destruct Hcs; simpl; [constructor | now constructor].
Qed.

Lemma parseLoop_sameTree (fuel : nat) :
  forall (queue1 queue2 : list htmlnode) (results : list jsstring),
    Forall2 sameTree queue1 queue2 ->
    parseLoop fuel queue1 results = parseLoop fuel queue2 results.
Proof.
  induction fuel as [|fuel IH]; intros queue1 queue2 results Hq;
    destruct Hq as [|node1 node2 rest1 rest2 Hnode Hrest]; try reflexivity.
  destruct (sameTree_reads _ _ Hnode) as (Ha & Ht & Hattr & Htext & Hpushed).
  simpl. rewrite Ha, Ht, Hattr, Htext.
  assert (Hqueue : Forall2 sameTree (rest1 ++ pushedNodes node1) (rest2 ++ pushedNodes node2))
    by now apply Forall2_app.
  destruct (nonEmpty (rawAttrs node2) || nonEmpty (rawText node2)).
  - destruct (getAttributeTranslation node2); simpl; try reflexivity.
    destruct (getTextTranslation node2); simpl; try reflexivity.
    now apply IH.
  - now apply IH.
Qed.

Lemma parseHTMLAst_sameTree (trees1 trees2 : list htmlnode) :
  Forall2 sameTree trees1 trees2 -> parseHTMLAst trees1 = parseHTMLAst trees2.
Proof.
  intro H. unfold parseHTMLAst.
  rewrite (parseLoop_fuel (sizes trees1) (sizes trees1 + sizes trees2)) by lia.
  rewrite (parseLoop_fuel (sizes trees2) (sizes trees1 + sizes trees2)) by lia.
  now apply parseLoop_sameTree.
Qed.

End TraversalFacts.

Import TraversalFacts.


(* ================================================================== *)
(** * The program extractor *)
(* ================================================================== *)

Module ProgramFacts.
Import JsString JsValue JsStringFacts Vocabulary Program.

Lemma find_app {A : Type} (f : A -> bool) (l1 l2 : list A) :
  find f (l1 ++ l2) = match find f l1 with Some x => Some x | None => find f l2 end.
Proof.
  induction l1 as [|a l1 IH]; simpl; [reflexivity|]. destruct (f a); [reflexivity|exact IH].
Qed.

Lemma find_all_false {A : Type} (f : A -> bool) (l : list A) :
  (forall x, In x l -> f x = false) -> find f l = None.
Proof.
  induction l as [|a l IH]; intro H; simpl; [reflexivity|].
  rewrite (H a) by now left. apply IH. intros x Hx. apply H. now right.
Qed.

Lemma validFields_split :
  validFields = earlierFields ++ conditionFields ++ [str "whenTrue.text"; str "whenFalse.text"].
Proof. reflexivity. Qed.

(** [parseFiles] visits the node, then its children from left to right. *)
Lemma parseFiles_unfold (self : value) (children : list tsnode) (parseResults : list value) :
  parseFiles (TsNode self children) parseResults
  = (translationKeys <- keysAt self ;; forEachRoot children (parseResults ++ translationKeys)).
Proof. reflexivity. Qed.

(** When a probe resolves, the key is the value of the first probe that
    does. *)
Lemma translationKeyOf_found (node : value) (validField : jsstring) :
  find (fun f => truthy (Lodash.get node (Some f))) validFields = Some validField ->
  translationKeyOf node = Ok (Lodash.get node (Some validField)).
Proof.
  intro H. unfold translationKeyOf. rewrite H.
  apply find_some in H as [_ ->]. reflexivity.
Qed.

(** A node with a non-empty [text] is resolved by the first probe. *)
Lemma translationKeyOf_text (fields : list (jsstring * value)) (text : jsstring) :
  lookup fields (str "text") = Some (VStr text) ->
  text <> [] ->
  translationKeyOf (VObj fields) = Ok (VStr text).
Proof.
  intros Hlookup Hne.
  assert (Hget : Lodash.get (VObj fields) (Some (str "text")) = VStr text).
  { unfold Lodash.get, Lodash.castPath, Lodash.isKey.
    change (negb (existsb (Ascii.eqb ".") (str "text"))) with true.
    cbn [orb nullish Lodash.baseGet member]. now rewrite Hlookup. }
  rewrite (translationKeyOf_found _ (str "text")); [now rewrite Hget|].
  unfold validFields. cbn [find]. rewrite Hget.
  destruct text; [contradiction|reflexivity].
Qed.

(** When no probe resolves on an object with no property named
    [undefined], and the object has no elements, [prettifyKey] is called on
    [undefined]: the key inference throws. *)
Lemma translationKeyOf_throws (fields : list (jsstring * value)) :
  (forall validField, In validField validFields ->
     truthy (Lodash.get (VObj fields) (Some validField)) = false) ->
  lookup fields (str "undefined") = None ->
  lookup fields (str "elements") = None \/ lookup fields (str "elements") = Some (VArr []) ->
  translationKeyOf (VObj fields) = TypeError.
Proof.
  intros Hprobes Hundef Helements. unfold translationKeyOf.
  rewrite find_all_false by exact Hprobes.
  assert (Hname : Lodash.get (VObj fields) None = VUndef).
  { unfold Lodash.get, Lodash.castPath. cbn [nullish Lodash.baseGet member].
    now rewrite Hundef. }
  rewrite Hname. cbn [truthy]. unfold prop. cbn [nullish bind member].
  destruct Helements as [-> | ->]; reflexivity.
Qed.

Lemma mapM_text_of_literals (texts : list jsstring) :
  mapM (fun element => prop element (str "text")) (map self (map stringLiteral texts))
  = Ok (map VStr texts).
Proof.
  induction texts as [|t texts IH]; [reflexivity|].
  cbn [map mapM]. rewrite IH. reflexivity.
Qed.

(** An array literal of string literals is resolved by no probe; the key
    is the array of the texts of its elements. *)
Lemma translationKeyOf_arrayLiteral (texts : list jsstring) :
  texts <> [] ->
  translationKeyOf (self (arrayLiteral (map stringLiteral texts))) = Ok (VArr (map VStr texts)).
Proof.
  intro Hne. unfold translationKeyOf.
  change (find _ validFields) with (@None jsstring).
  change (Lodash.get (self (arrayLiteral (map stringLiteral texts))) None) with VUndef.
  cbn [truthy]. 
  change (prop (self (arrayLiteral (map stringLiteral texts))) (str "elements"))
    with (Ok (VArr (map self (map stringLiteral texts)))).
  cbn [bind truthy arrayMap]. rewrite mapM_text_of_literals. cbn [bind truthy andb].
  change (member (VArr (map VStr texts)) (str "length"))
    with (VNum (Z.of_nat (List.length (map VStr texts)))).
  destruct texts; [contradiction|reflexivity].
Qed.

(** A string literal is no call: the traversal finds nothing below a list
    of string literals. *)
Lemma forEachRoot_literals (texts : list jsstring) (parseResults : list value) :
  forEachRoot (map stringLiteral texts) parseResults = Ok parseResults.
Proof.
  induction texts as [|t texts IH]; [reflexivity|].
  cbn [map forEachRoot]. unfold stringLiteral at 1. rewrite parseFiles_unfold.
  change (keysAt (object [field "kind" (VNum 10); field "text" (VStr t)]))
    with (@Ok (list value) []).
  cbn [bind forEachRoot]. rewrite app_nil_r. exact IH.
Qed.

End ProgramFacts.

Import ProgramFacts Program.

(** The member call [translate.instant(argument, ...)]. *)
Lemma instant_call_shape (arguments : list tsnode) :
  let callee := propertyAccess (identifier "translate") "instant" in
  isInstantCall (self (callExpression callee arguments)) = true.
Proof. reflexivity. Qed.

(** C4, as stated, fails: in the bare call [instant('errors.timeout')] the
    callee is the identifier [instant], which has a text but no [name]
    child; the call is not taken for a call of the translation function and
    yields no key. *)
Lemma bare_instant_call_counterexample :
  let callee := identifier "instant" in
  let call := callExpression callee [stringLiteral (str "errors.timeout")] in
  member (self callee) (str "escapedText") = VStr (str "instant")
  /\ member (self call) (str "kind") = VNum 207
  /\ isInstantCall (self call) = false
  /\ parseTSAst [sourceFile [expressionStatement call]] = Ok [].
Proof. cbv zeta. repeat split; vm_compute; reflexivity. Qed.

(** C4, amended: a node is taken for a call of the translation function
    exactly when its kind is 207, it has an [expression] (the callee), the
    callee has a [name] child, and the text of that child is [instant]: a
    member call such as [translate.instant(...)].  For every such node whose
    first argument is a node with a non-empty [text], a string literal for
    one, the keys extracted at the node are that text alone; the member call
    [translate.instant('errors.timeout')] yields [errors.timeout]. *)
Theorem member_call_instant_yields_literal :
  (forall node : value,
      isInstantCall node = true
      <-> (truthy (member node (str "expression")) = true
           /\ member node (str "kind") = VNum 207
           /\ truthy (member (member node (str "expression")) (str "name")) = true
           /\ member (member (member node (str "expression")) (str "name")) (str "escapedText")
              = VStr (str "instant")))
  /\ (forall (node : value) (fields : list (jsstring * value)) (rest : list value)
             (text : jsstring),
         isInstantCall node = true ->
         member node (str "arguments") = VArr (VObj fields :: rest) ->
         lookup fields (str "text") = Some (VStr text) ->
         text <> [] ->
         keysAt node = Ok [VStr text])
  /\ parseTSAst
       [sourceFile
          [expressionStatement
             (callExpression (propertyAccess (identifier "translate") "instant")
                             [stringLiteral (str "errors.timeout")])]]
     = Ok [VStr (str "errors.timeout")].
Proof.
  split; [|split].
  - intro node. unfold isInstantCall. rewrite !andb_true_iff.
    assert (Hkind : strictEqNum (member node (str "kind")) 207 = true
                    <-> member node (str "kind") = VNum 207).
    { destruct (member node (str "kind")); simpl; split; intro H; try discriminate.
      - apply Z.eqb_eq in H. now subst.
      - injection H as ->. reflexivity. }
    assert (Hname : forall v, strictEqStr v (str "instant") = true <-> v = VStr (str "instant")).
    { intros [| | | |s| |]; simpl; split; intro H; try discriminate.
      - apply jsstring_eqb_eq in H. now subst.
      - injection H as ->. reflexivity. }
    rewrite Hkind, Hname. tauto.
  - intros node fields rest text Hcall Hargs Htext Hne. unfold keysAt.
    destruct node; try discriminate Hcall; cbn [nullish]; rewrite Hcall, Hargs;
      cbn [firstOf hd bind mapM]; rewrite (translationKeyOf_text fields text) by assumption;
      reflexivity.
  - vm_compute. reflexivity.
Qed.

Lemma member_call_instant_yields_literal_witness :
  keysAt (self (callExpression (propertyAccess (identifier "translate") "instant")
                               [stringLiteral (str "errors.timeout"); identifier "params"]))
  = Ok [VStr (str "errors.timeout")].
Proof.
  apply (proj1 (proj2 member_call_instant_yields_literal)
           (self (callExpression (propertyAccess (identifier "translate") "instant")
                                 [stringLiteral (str "errors.timeout"); identifier "params"]))
           [field "kind" (VNum 10); field "text" (VStr (str "errors.timeout"))]
           [self (identifier "params")]).
  - reflexivity.
  - reflexivity.
  - reflexivity.
  - discriminate.
Defined.

(** C1, as stated, fails: for [translate.instant(cond ? 'a.b' : 'c.d')] the
    probe [condition.escapedText] comes before [whenTrue.text] in the list
    and resolves to the name of the condition; the key is [cond], not
    [a.b]. *)
Lemma ternary_true_branch_counterexample :
  let argument := conditionalExpression (identifier "cond")
                    (stringLiteral (str "a.b")) (stringLiteral (str "c.d")) in
  let call := callExpression (propertyAccess (identifier "translate") "instant") [argument] in
  parseTSAst [sourceFile [expressionStatement call]] = Ok [VStr (str "cond")]
  /\ VStr (str "cond") <> VStr (str "a.b").
Proof. cbv zeta. split; [vm_compute; reflexivity | discriminate]. Qed.

(** C1, amended: on an argument that none of the first seven probes
    resolves (a conditional expression is one), the three probes of the
    condition take priority over the true branch, and the true branch over
    the false branch: when one of the condition probes resolves, the key is
    the value of a condition probe; when none does and the true branch has a
    non-empty text, the key is that text, whatever the false branch is. *)
Theorem ternary_probe_order (node : value) :
  (forall validField, In validField earlierFields ->
     truthy (Lodash.get node (Some validField)) = false) ->
  ((exists validField, In validField conditionFields
                       /\ truthy (Lodash.get node (Some validField)) = true) ->
   exists validField, In validField conditionFields
                      /\ truthy (Lodash.get node (Some validField)) = true
                      /\ translationKeyOf node = Ok (Lodash.get node (Some validField)))
  /\ ((forall validField, In validField conditionFields ->
         truthy (Lodash.get node (Some validField)) = false) ->
      truthy (Lodash.get node (Some (str "whenTrue.text"))) = true ->
      translationKeyOf node = Ok (Lodash.get node (Some (str "whenTrue.text")))).
Proof.
  intro Hearlier.
  pose (probe := fun validField => truthy (Lodash.get node (Some validField))).
  assert (Hfind : find probe validFields
                  = match find probe conditionFields with
                    | Some x => Some x
                    | None => find probe [str "whenTrue.text"; str "whenFalse.text"]
                    end).
  { rewrite validFields_split, !find_app.
    now rewrite (find_all_false probe earlierFields Hearlier). }
  split.
  - intros (c & Hin & Hc).
    destruct (find probe conditionFields) as [validField|] eqn:E.
    + exists validField. pose proof (find_some _ _ E) as [Hin' Htrue].
      repeat split; try assumption.
      apply translationKeyOf_found. fold probe. now rewrite Hfind.
    + pose proof (find_none _ _ E c Hin) as Hfalse. unfold probe in Hfalse. congruence.
  - intros Hcondition HwhenTrue.
    apply translationKeyOf_found. fold probe. rewrite Hfind.
    rewrite (find_all_false probe conditionFields Hcondition).
    cbn [find]. unfold probe at 1. now rewrite HwhenTrue.
Qed.

Lemma ternary_probe_order_witness :
  let byName := self (conditionalExpression (identifier "cond")
                        (stringLiteral (str "a.b")) (stringLiteral (str "c.d"))) in
  let byTest := self (conditionalExpression
                        (binaryExpression (identifier "a") plusToken (identifier "b"))
                        (stringLiteral (str "a.b")) (stringLiteral (str "c.d"))) in
  (exists validField, In validField conditionFields
                      /\ truthy (Lodash.get byName (Some validField)) = true
                      /\ translationKeyOf byName = Ok (Lodash.get byName (Some validField)))
  /\ translationKeyOf byTest = Ok (Lodash.get byTest (Some (str "whenTrue.text"))).
Proof.
  intros byName byTest. split.
  - apply (proj1 (ternary_probe_order byName
                    ltac:(intros f Hf; repeat (destruct Hf as [<-|Hf]; [reflexivity|]);
                          contradiction))).
    exists (str "condition.escapedText"). split; [right; right; left|]; reflexivity.
  - apply (proj2 (ternary_probe_order byTest
                    ltac:(intros f Hf; repeat (destruct Hf as [<-|Hf]; [reflexivity|]);
                          contradiction))).
    + intros f Hf. repeat (destruct Hf as [<-|Hf]; [reflexivity|]). contradiction.
    + reflexivity.
Defined.

(** C3, the defect: for [translate.instant(a + b)] no probe resolves and
    the argument has no elements, so the program goes on to build the marker
    from [prettifyKey(name)] with [name] undefined; [prettifyKey] reads
    [replace] of [undefined] and the run ends in a TypeError instead of a
    marker. *)
Theorem unmatched_argument_throws :
  let argument := binaryExpression (identifier "a") plusToken (identifier "b") in
  let call := callExpression (propertyAccess (identifier "translate") "instant") [argument] in
  translationKeyOf (self argument) = TypeError
  /\ parseTSAst [sourceFile [expressionStatement call]] = TypeError.
Proof. cbv zeta. split; vm_compute; reflexivity. Qed.

(* ================================================================== *)
(** * The resolver *)
(* ================================================================== *)

Module ResolverFacts.
Import JsString JsValue JsStringFacts Vocabulary Resolver.

Lemma bind_Ok_r {A : Type} (m : outcome A) : bind m Ok = m.
Proof. destruct m; reflexivity. Qed.







(** The branches of the function reduced over the keys. *)
Lemma fileKey_cases (translationsObject acc unresolvedTranslations : value) (k : jsstring) :
  fileKey translationsObject (acc, unresolvedTranslations) (VStr k)
  = if walkInherits translationsObject (split "."%char k) then Unmodelled
    else if truthy (walk translationsObject (split "."%char k))
    then if readsPrimitive translationsObject (split "."%char k)
            || Lodash.inheritedOnPath acc (split "."%char k)
         then Unmodelled
         else acc' <- Lodash.set acc (split "."%char k)
                        (walk translationsObject (split "."%char k)) ;;
              Ok (acc', unresolvedTranslations)
    else if Lodash.inheritedOnPath unresolvedTranslations (split "."%char k) then Unmodelled
         else unresolved' <- Lodash.set unresolvedTranslations (split "."%char k) (VStr k) ;;
              Ok (acc, unresolved').
Proof. reflexivity. Qed.


Lemma filterResults_two (k1 k2 : jsstring) :
  k1 <> k2 -> filterResults [VStr k1; VStr k2] = [VStr k1; VStr k2].
Proof.
  intro H. unfold filterResults. simpl.
  replace (JsString.eqb k2 k1) with false; [reflexivity|].
  symmetry. apply jsstring_eqb_neq. congruence.
Qed.

End ResolverFacts.

Import ResolverFacts Resolver.

(** C2, as stated, fails on its own example: the bare call
    [instant(['k1','k2'])] has an identifier for callee, is not taken for a
    call of the translation function, and yields no candidate; nothing is
    filed. *)
Lemma bare_array_call_counterexample :
  let argument := arrayLiteral [stringLiteral (str "k1"); stringLiteral (str "k2")] in
  let file := sourceFile [expressionStatement (callExpression (identifier "instant") [argument])] in
  parseTSAst [file] = Ok []
  /\ script [] [file] (object [field "k1" (VStr (str "One"))]) = Ok (object [], object []).
Proof. cbv zeta. split; vm_compute; reflexivity. Qed.

(** C2, amended: for a member call of the translation function whose one
    argument is an array literal of string literals, the program extractor
    emits the array of their texts as one candidate; the script then
    flattens it, and the resolver files the elements one by one with the
    function that files plain string candidates, so that the outcome is that
    of the same texts emitted as separate candidates.  For
    [translate.instant(['k1','k2'])] the candidate is the array of [k1] and
    [k2]; [k1] is filed, then [k2]. *)
Theorem array_argument_filed_elementwise
  (texts : list jsstring) (translationsObject : value) :
  texts <> [] ->
  let call := callExpression (propertyAccess (identifier "translate") "instant")
                [arrayLiteral (map stringLiteral texts)] in
  let file := sourceFile [expressionStatement call] in
  parseTSAst [file] = Ok [VArr (map VStr texts)]
  /\ script [] [file] translationsObject
     = createJSONTranslations translationsObject (filterResults (map VStr texts))
  /\ (forall k1 k2, texts = [k1; k2] -> k1 <> k2 ->
        script [] [file] translationsObject
        = (state <- fileKey translationsObject (VObj [], VObj []) (VStr k1) ;;
           fileKey translationsObject state (VStr k2))).
Proof.
  intros Hne call file.
  assert (Hparse : parseTSAst [file] = Ok [VArr (map VStr texts)]).
  { unfold parseTSAst, file, sourceFile, expressionStatement. cbn [forEachRoot].
    rewrite !parseFiles_unfold.
    change (keysAt (object [field "statements" (VArr (map self [TsNode
              (object [field "kind" (VNum 237); field "expression" (self call)]) [call]]))]))
      with (@Ok (list value) []).
    cbn [bind app forEachRoot]. rewrite parseFiles_unfold.
    change (keysAt (object [field "kind" (VNum 237); field "expression" (self call)]))
      with (@Ok (list value) []).
    cbn [bind app forEachRoot]. unfold call, callExpression. rewrite parseFiles_unfold.
    unfold keysAt.
    change (nullish _) with false.
    change (isInstantCall _) with true.
    cbn [map]. 
    change (firstOf _) with (Ok (self (arrayLiteral (map stringLiteral texts)))).
    cbn [bind]. unfold arrayLiteral at 1. cbn [self object mapM].
    fold (object [field "kind" (VNum 203);
                  field "elements" (VArr (map self (map stringLiteral texts)))]).
    change (object [field "kind" (VNum 203);
                    field "elements" (VArr (map self (map stringLiteral texts)))])
      with (self (arrayLiteral (map stringLiteral texts))).
    rewrite (translationKeyOf_arrayLiteral texts Hne). cbn [bind app forEachRoot].
    change (parseFiles (propertyAccess (identifier "translate") "instant")
              [VArr (map VStr texts)])
      with (Ok [VArr (map VStr texts)]).
    cbn [bind]. unfold arrayLiteral. rewrite parseFiles_unfold.
    change (keysAt _) with (@Ok (list value) []).
    cbn [bind]. rewrite app_nil_r, forEachRoot_literals. reflexivity. }
  assert (Hscript : script [] [file] translationsObject
                    = createJSONTranslations translationsObject (filterResults (map VStr texts))).
  { unfold script. rewrite Hparse. cbn [Markup.parseHTMLAst bind].
    change (Markup.parseHTMLAst []) with (@Ok (list jsstring) []). cbn [bind map app].
    unfold flat. cbn [flat_map]. now rewrite app_nil_r. }
  split; [exact Hparse|]. split; [exact Hscript|].
  intros k1 k2 -> Hk. rewrite Hscript. cbn [map].
  rewrite (filterResults_two k1 k2 Hk). unfold createJSONTranslations. cbn [reduceKeys].
  apply MarkupFacts.bind_ext. intro state. apply bind_Ok_r.
Qed.

Lemma array_argument_filed_elementwise_witness :
  let call := callExpression (propertyAccess (identifier "translate") "instant")
                [arrayLiteral [stringLiteral (str "k1"); stringLiteral (str "k2")]] in
  parseTSAst [sourceFile [expressionStatement call]]
  = Ok [VArr [VStr (str "k1"); VStr (str "k2")]].
Proof.
  intro call.
  apply (proj1 (array_argument_filed_elementwise [str "k1"; str "k2"] (object [])
                  ltac:(discriminate))).
Defined.

(* ================================================================== *)
(** * Further properties of the markup extractor *)
(* ================================================================== *)

Module TrimFacts.
Import JsString JsStringFacts.

Lemma trimStart_app_last (s : jsstring) (c : ascii) :
  isWhiteSpace c = false -> trimStart (s ++ [c]) = trimStart s ++ [c].
Proof.
  intro Hc. induction s as [|x s IH]; simpl.
  - now rewrite Hc.
  - destruct (isWhiteSpace x); [exact IH|reflexivity].
Qed.

Lemma trimStart_fixed (s : jsstring) :
  match s with [] => True | c :: _ => isWhiteSpace c = false end -> trimStart s = s.
Proof. destruct s as [|c s]; simpl; [reflexivity|]. now intros ->. Qed.

Lemma trimStart_head (s : jsstring) :
  match trimStart s with [] => True | c :: _ => isWhiteSpace c = false end.
Proof.
  induction s as [|c s IH]; simpl; [exact I|].
  destruct (isWhiteSpace c) eqn:E; [exact IH|exact E].
Qed.

(** [trimEnd] keeps a first code unit that is not white space. *)
Lemma trimEnd_head (c : ascii) (s : jsstring) :
  isWhiteSpace c = false -> exists t, trimEnd (c :: s) = c :: t.
Proof.
  intro Hc. unfold trimEnd. simpl rev.
  induction (rev s) as [|x r IH]; simpl.
  - rewrite Hc. now exists [].
  - destruct (isWhiteSpace x) eqn:E; [exact IH|].
    simpl. rewrite rev_app_distr. simpl. eauto.
Qed.

Lemma trim_head (s : jsstring) :
  match trim s with [] => True | c :: _ => isWhiteSpace c = false end.
Proof.
  unfold trim. pose proof (trimStart_head s) as H.
  destruct (trimStart s) as [|c t]; [exact I|].
  destruct (trimEnd_head c t H) as [u ->]. exact H.
Qed.

Lemma trim_last (s : jsstring) :
  match rev (trim s) with [] => True | c :: _ => isWhiteSpace c = false end.
Proof.
  unfold trim, trimEnd. rewrite rev_involutive. apply trimStart_head.
Qed.

(** A string that starts with a code unit that is not white space does
    not trim to the empty string. *)
Lemma trim_nonempty (c : ascii) (s : jsstring) :
  isWhiteSpace c = false -> trim (c :: s) <> [].
Proof.
  intro Hc. unfold trim. simpl. rewrite Hc.
  destruct (trimEnd_head c s Hc) as [t ->]. discriminate.
Qed.

Lemma trim_idempotent (s : jsstring) : trim (trim s) = trim s.
Proof.
  pose proof (trim_head s) as Hh. pose proof (trim_last s) as Hl.
  unfold trim at 1. rewrite (trimStart_fixed (trim s) Hh).
  unfold trimEnd. rewrite (trimStart_fixed (rev (trim s)) Hl). apply rev_involutive.
Qed.

Lemma trim_white (s : jsstring) :
  Forall (fun c => isWhiteSpace c = true) s -> trim s = [].
Proof.
  intro H. unfold trim.
  replace (trimStart s) with (@nil ascii); [reflexivity|].
  induction H as [|c s Hc _ IH]; simpl; [reflexivity|]. now rewrite Hc.
Qed.

End TrimFacts.

Module ScanFacts.
Import JsString JsValue JsStringFacts Vocabulary QuoteSearch Markup MarkupFacts TrimFacts.

Lemma afterMarker_length (value : jsstring) :
  indexOf value translateKeyword <> -1 ->
  (List.length (afterMarker value) + 11 <= List.length value)%nat.
Proof.
  intro H. apply indexOf_bounds in H. unfold afterMarker.
  change (len translateKeyword) with 11 in *.
  rewrite substring_from by lia. rewrite length_skipn. unfold len in *. lia.
Qed.

(** Where [indexOf] finds the needle, the needle is. *)
Lemma indexOf_from_found (needle s : jsstring) (i : Z) :
  indexOf_from needle s i <> -1 ->
  startsWith needle (skipn (Z.to_nat (indexOf_from needle s i - i)) s) = true.
Proof.
  revert i; induction s as [|c s IH]; intros i H; simpl in *.
  - destruct (startsWith needle []) eqn:E; [|contradiction].
    now rewrite Z.sub_diag.
  - destruct (startsWith needle (c :: s)) eqn:E.
    + now rewrite Z.sub_diag.
    + specialize (IH (i + 1) H).
      destruct (indexOf_from_bounds needle s (i + 1)) as [Hb|Hb]; [contradiction|].
      replace (Z.to_nat (indexOf_from needle s (i + 1) - i))
        with (S (Z.to_nat (indexOf_from needle s (i + 1) - (i + 1)))) by lia.
      exact IH.
Qed.

(** Where the needle is, [indexOf] finds it or an earlier one. *)
Lemma indexOf_from_complete (needle s : jsstring) (i : Z) (k : nat) :
  0 <= i ->
  startsWith needle (skipn k s) = true ->
  indexOf_from needle s i <> -1.
Proof.
  revert i k; induction s as [|c s IH]; intros i k Hi H.
  - rewrite skipn_nil in H. simpl. rewrite H. lia.
  - simpl. destruct (startsWith needle (c :: s)) eqn:E; [lia|].
    destruct k as [|k]; [simpl in H; congruence|].
    apply (IH (i + 1) k); [lia|exact H].
Qed.

Lemma marker_contains_translate (s : jsstring) :
  startsWith translateKeyword s = true -> startsWith (str "translate") (skipn 2 s) = true.
Proof.
  intro H. unfold translateKeyword in H. destruct s as [|c1 [|c2 s]].
  - discriminate H.
  - cbn [str list_ascii_of_string startsWith] in H.
    rewrite andb_false_r in H. discriminate H.
  - cbn [str list_ascii_of_string startsWith] in H.
    apply andb_true_iff in H as [_ H]. apply andb_true_iff in H as [_ H].
    exact H.
Qed.

(** A marker that begins before the end of [a] in [a ++ marker ++ b] lies
    within [a]: the marker has its bar at the front only. *)
Lemma marker_not_astride (a b : jsstring) :
  a <> [] ->
  startsWith translateKeyword (a ++ translateKeyword ++ b) = true ->
  startsWith translateKeyword a = true.
Proof.
  intros Hne H. unfold translateKeyword in *.
  do 11 (destruct a as [|? a];
         [ try (exfalso; apply Hne; reflexivity);
           exfalso;
           cbn [app str list_ascii_of_string startsWith] in H;
           repeat (apply andb_true_iff in H as [? H]);
           repeat match goal with
                  | E : Ascii.eqb _ _ = true |- _ => apply Ascii.eqb_eq in E; try discriminate E
                  end
         | try clear Hne ]).
  cbn [app str list_ascii_of_string startsWith] in H |- *. exact H.
Qed.

Lemma indexOf_from_first_marker (a b : jsstring) (i : Z) :
  indexOf_from translateKeyword a i = -1 ->
  0 <= i ->
  indexOf_from translateKeyword (a ++ translateKeyword ++ b) i = i + len a.
Proof.
  revert i; induction a as [|c a IH]; intros i H Hi.
  - simpl app. change (len []) with 0.
    destruct b; cbn; lia.
  - cbn [indexOf_from] in H.
    destruct (startsWith translateKeyword (c :: a)) eqn:E; [lia|].
    change ((c :: a) ++ translateKeyword ++ b) with (c :: a ++ translateKeyword ++ b).
    cbn [indexOf_from].
    destruct (startsWith translateKeyword (c :: a ++ translateKeyword ++ b)) eqn:E'.
    + apply (marker_not_astride (c :: a) b) in E'; [congruence|discriminate].
    + rewrite IH by (try assumption; lia). rewrite len_cons. lia.
Qed.

End ScanFacts.

Import TrimFacts ScanFacts Coverage.

(** X1: [prettifyKey] removes the white space of a key and nothing else:
    what is left are the code units of the key that are not white space, in
    their order; the second [replace], which has no replacement text, never
    writes anything, and a second call changes nothing. *)
Theorem prettifyKey_only_removes_white_space (key : jsstring) :
  Markup.prettifyKey key = filter (fun c => negb (isWhiteSpace c)) key
  /\ (forall c, In c (Markup.prettifyKey key) <-> In c key /\ isWhiteSpace c = false)
  /\ Markup.prettifyKey (Markup.prettifyKey key) = Markup.prettifyKey key.
Proof.
  assert (H : Markup.prettifyKey key = filter (fun c => negb (isWhiteSpace c)) key)
    by apply prettifyKey_removeWhiteSpace.
  split; [exact H|]. split.
  - intro c. rewrite H, filter_In, negb_true_iff. reflexivity.
  - rewrite (prettifyKey_removeWhiteSpace (Markup.prettifyKey key)), H.
    unfold removeWhiteSpace. clear H. induction key as [|c key IH]; [reflexivity|].
    simpl. destruct (isWhiteSpace c) eqn:E; simpl; [exact IH|]. now rewrite E, IH.
Qed.

Lemma translationKeyAt_shape (currentString : jsstring) (i : Z) :
  translationKeyAt currentString i <> []
  /\ (trim (translationKeyAt currentString i) = translationKeyAt currentString i
      \/ exists attrs, translationKeyAt currentString i = markupMarker attrs).
Proof.
  unfold translationKeyAt. cbv zeta.
  match goal with
  | |- context [match ?t with [] => _ | _ :: _ => _ end] => destruct t as [|c k] eqn:E
  end.
  - split; [discriminate|]. right. eexists. unfold markupMarker.
    rewrite prettifyKey_removeWhiteSpace. reflexivity.
  - split; [discriminate|]. left. rewrite <- E. apply trim_idempotent.
Qed.

(** X2: the scan of a string for [| translate] always comes to an end with
    a list of candidates; none of them is empty; each is either a key with
    no white space at its ends or a marker text; there are at most as many
    as the string has room for markers, and none exactly when the string
    has no marker. *)
Theorem pipe_scan_candidates (value : jsstring) :
  exists found,
    extractTranslationsFromString value = Ok found
    /\ Forall (fun key => key <> []
                          /\ (trim key = key \/ exists attrs, key = markupMarker attrs)) found
    /\ (11 * List.length found <= List.length value)%nat
    /\ (found = [] <-> indexOf value translateKeyword = -1).
Proof.
  remember (List.length value) as n eqn:Hn. revert value Hn.
  induction n as [n IH] using lt_wf_ind. intros value Hn.
  rewrite extractTranslationsFromString_unfold.
  destruct (indexOf value translateKeyword =? -1) eqn:E.
  - exists []. apply Z.eqb_eq in E. repeat split; auto. simpl. lia.
  - apply Z.eqb_neq in E. pose proof (afterMarker_length value E) as Hlen.
    destruct (IH (List.length (afterMarker value)) ltac:(lia) _ eq_refl)
      as (found & -> & Hall & Hcount & _).
    eexists. split; [reflexivity|]. split; [|split].
    + constructor; [apply translationKeyAt_shape|exact Hall].
    + simpl List.length. lia.
    + split; [discriminate|contradiction].
Qed.

(** X3: the test [rawText.includes('translate')] never loses a candidate:
    for every node with a raw text, the text candidates are those of the
    scan of that text. *)
Theorem text_prefilter_is_transparent
  (childNodes : option (list htmlnode)) (rawAttrs : option jsstring) (text : jsstring)
  (getAttribute : option (jsstring -> option jsstring)) :
  getTextTranslation (HtmlNode childNodes rawAttrs (Some text) getAttribute)
  = extractTranslationsFromString text.
Proof.
  unfold getTextTranslation. cbn [rawText].
  destruct text as [|c text]; [reflexivity|].
  destruct (includes (c :: text) (str "translate")) eqn:E; [reflexivity|].
  rewrite extractTranslationsFromString_unfold.
  destruct (indexOf (c :: text) translateKeyword =? -1) eqn:E'; [reflexivity|].
  exfalso. apply Z.eqb_neq in E'.
  pose proof (indexOf_from_found translateKeyword (c :: text) 0 E') as Hat.
  apply marker_contains_translate in Hat. rewrite skipn_skipn in Hat.
  unfold includes in E. apply negb_false_iff, Z.eqb_eq in E.
  now apply (indexOf_from_complete (str "translate") (c :: text) 0 _ ltac:(lia)) in Hat.
Qed.

Lemma quote_is_not_white (q : ascii) : isQuote q = true -> isWhiteSpace q = false.
Proof.
  unfold isQuote. intro H. apply orb_true_iff in H as [H|H];
    apply Ascii.eqb_eq in H; subst q; reflexivity.
Qed.

(** X4: when the trimmed text before a [| translate] has exactly one
    quote, the candidate is never a marker: it is the text from the start up
    to the quote, trimmed, or, when the quote comes first, the quote
    itself. *)
Theorem lone_quote_yields_text_before_it (value pre post : jsstring) (q : ascii) :
  indexOf value translateKeyword <> -1 ->
  beforeMarker value = pre ++ q :: post ->
  isQuote q = true ->
  Forall (fun c => isQuote c = false) pre ->
  Forall (fun c => isQuote c = false) post ->
  let key := match pre with [] => [q] | _ :: _ => trim pre end in
  key <> []
  /\ extractTranslationsFromString value
     = (found <- extractTranslationsFromString (afterMarker value) ;; Ok (key :: found)).
Proof.
  intros Hidx Hattrs Hq Hpre Hpost key.
  pose proof (len_nonneg pre) as Hpre0. pose proof (len_nonneg post) as Hpost0.
  assert (Hkey : translationKeyAt value (indexOf value translateKeyword) = key /\ key <> []).
  { unfold beforeMarker in Hattrs. unfold translationKeyAt. rewrite Hattrs.
    set (attrs := pre ++ q :: post).
    assert (Hlen : len attrs = len pre + 1 + len post)
      by (unfold attrs; rewrite len_app, len_cons; lia).
    assert (Hend : Z.max (lastIndexOf attrs [squote] None) (lastIndexOf attrs [dquote] None)
                   = len pre).
    { rewrite lastIndexOf_quotes. unfold searchLimit, attrs.
      replace (q :: post) with (q :: post ++ []) by now rewrite app_nil_r.
      rewrite scanLast_hit; try assumption; [lia|].
      rewrite app_nil_r. fold attrs. lia. }
    rewrite Hend. destruct pre as [|c pre].
    - change (len []) with 0 in *. cbn [app] in attrs.
      assert (Hstart : Z.max (lastIndexOf attrs [squote] (Some (0 - 1)))
                             (lastIndexOf attrs [dquote] (Some (0 - 1))) = 0).
      { rewrite lastIndexOf_quotes.
        pose proof (scanLast_hit isQuote [] post [] q 0
                      (searchLimit attrs (Some (0 - 1))) (-1) Hq Hpost) as Hs.
        rewrite app_nil_r in Hs. cbn [app] in Hs. fold attrs in Hs. apply Hs.
        unfold searchLimit. change (len []) with 0. lia. }
      rewrite Hstart.
      assert (Hsub : substring attrs (0 + 1) (Some 0) = [q]).
      { unfold substring, clamp. rewrite Hlen.
        replace (Z.min (Z.max (0 + 1) 0) (0 + 1 + len post)) with 1 by lia.
        replace (Z.min (Z.max 0 0) (0 + 1 + len post)) with 0 by lia.
        reflexivity. }
      rewrite Hsub. unfold key.
      assert (Htrim : trim [q] = [q]).
      { unfold trim. simpl. rewrite (quote_is_not_white q Hq).
        unfold trimEnd. simpl. now rewrite (quote_is_not_white q Hq). }
      rewrite Htrim. split; [reflexivity|discriminate].
    - assert (Hstart : Z.max (lastIndexOf attrs [squote] (Some (len (c :: pre) - 1)))
                             (lastIndexOf attrs [dquote] (Some (len (c :: pre) - 1))) = -1).
      { rewrite lastIndexOf_quotes. unfold searchLimit, attrs.
        rewrite scanLast_skip by assumption. apply scanLast_beyond.
        pose proof (len_cons c pre). pose proof (len_nonneg pre). lia. }
      rewrite Hstart. change (-1 + 1) with 0.
      assert (Hsub : substring attrs 0 (Some (len (c :: pre))) = c :: pre).
      { unfold attrs.
        apply (substring_middle [] (c :: pre) (q :: post)). }
      rewrite Hsub. unfold key.
      assert (Hne : trim (c :: pre) <> []).
      { apply trim_nonempty.
        pose proof (trim_head (substring value 0 (Some (indexOf value translateKeyword)))) as Hh.
        rewrite Hattrs in Hh. exact Hh. }
      split; [|exact Hne].
      destruct (trim (c :: pre)); [contradiction|reflexivity]. }
  destruct Hkey as [Hkey Hne]. split; [exact Hne|].
  rewrite extractTranslationsFromString_unfold.
  apply Z.eqb_neq in Hidx. rewrite Hidx, Hkey. reflexivity.
Qed.

Lemma lone_quote_yields_text_before_it_witness :
  extractTranslationsFromString (str "{{ user's | translate }} 'oops | translate")
  = (found <- extractTranslationsFromString (str " }} 'oops | translate") ;;
     Ok (str "{{ user" :: found))
  /\ extractTranslationsFromString (str "'oops | translate") = Ok [[squote]].
Proof.
  split.
  - apply (lone_quote_yields_text_before_it
             (str "{{ user's | translate }} 'oops | translate") (str "{{ user") (str "s") squote).
    + vm_compute. discriminate.
    + vm_compute. reflexivity.
    + reflexivity.
    + repeat constructor.
    + repeat constructor.
  - apply (lone_quote_yields_text_before_it (str "'oops | translate") [] (str "oops") squote).
    + vm_compute. discriminate.
    + vm_compute. reflexivity.
    + reflexivity.
    + constructor.
    + repeat constructor.
Defined.

Lemma substring_prefix (a rest : jsstring) : substring (a ++ rest) 0 (Some (len a)) = a.
Proof. apply (substring_middle [] a rest). Qed.

(** X5: the scan composes over the markers: for a text [a] without marker,
    the candidates of [a] followed by a marker and any text [b] are the
    candidate computed from [a] alone, then the candidates of [b]. *)
Theorem scan_composes_over_markers (a b : jsstring) :
  indexOf a translateKeyword = -1 ->
  extractTranslationsFromString (a ++ translateKeyword ++ b)
  = (found <- extractTranslationsFromString b ;; Ok (translationKeyAt a (len a) :: found)).
Proof.
  intro Hnone.
  assert (Hidx : indexOf (a ++ translateKeyword ++ b) translateKeyword = len a).
  { unfold indexOf in *. rewrite indexOf_from_first_marker by (try assumption; lia). lia. }
  pose proof (len_nonneg a) as Ha.
  rewrite extractTranslationsFromString_unfold. unfold afterMarker. rewrite Hidx.
  replace (len a =? -1) with false by (symmetry; apply Z.eqb_neq; lia).
  assert (Hrest : substring (a ++ translateKeyword ++ b) (len a + len translateKeyword) None = b).
  { rewrite substring_from.
    - rewrite app_assoc. rewrite <- len_app. unfold len. rewrite Nat2Z.id.
      rewrite skipn_app, skipn_all, Nat.sub_diag. reflexivity.
    - rewrite !len_app. pose proof (len_nonneg b). pose proof (len_nonneg translateKeyword). lia. }
  rewrite Hrest.
  assert (Hkey : translationKeyAt (a ++ translateKeyword ++ b) (len a)
                 = translationKeyAt a (len a)).
  { assert (Hself : substring a 0 (Some (len a)) = a)
      by (pose proof (substring_prefix a []) as X; now rewrite app_nil_r in X).
    unfold translationKeyAt. rewrite substring_prefix, Hself. reflexivity. }
  now rewrite Hkey.
Qed.

Lemma scan_composes_over_markers_witness :
  extractTranslationsFromString
    (str "{{ 'nav.home' " ++ translateKeyword ++ str " }} {{ 'nav.end' | translate }}")
  = (found <- extractTranslationsFromString (str " }} {{ 'nav.end' | translate }}") ;;
     Ok (translationKeyAt (str "{{ 'nav.home' ") (len (str "{{ 'nav.home' ")) :: found)).
Proof.
  apply (scan_composes_over_markers (str "{{ 'nav.home' ") (str " }} {{ 'nav.end' | translate }}")).
  vm_compute. reflexivity.
Defined.

(** X6: the [translate] attribute, unlike the scan, can give an empty
    candidate: a value made of white space only is a truthy string, and its
    trimmed value, the empty string, is emitted as the key. *)
Theorem blank_translate_attribute_yields_empty_key
  (node : htmlnode) (getAttr : jsstring -> option jsstring) (translationKey : jsstring) :
  getAttribute node = Some getAttr ->
  getAttr (str "translate") = Some translationKey ->
  translationKey <> [] ->
  Forall (fun c => isWhiteSpace c = true) translationKey ->
  getAttributeTranslation node = Ok [[]].
Proof.
  intros Hget Hattr Hne Hblank. unfold getAttributeTranslation. rewrite Hget, Hattr.
  destruct translationKey as [|c k]; [contradiction|].
  now rewrite (trim_white (c :: k) Hblank).
Qed.

Lemma blank_translate_attribute_yields_empty_key_witness :
  getAttributeTranslation
    (element (str "translate=' '") [(str "translate", str " ")] [] []) = Ok [[]].
Proof.
  apply (blank_translate_attribute_yields_empty_key
           (element (str "translate=' '") [(str "translate", str " ")] [] [])
           (attribute [(str "translate", str " ")]) (str " ")).
  - reflexivity.
  - reflexivity.
  - discriminate.
  - repeat constructor.
Defined.

(* ================================================================== *)
(** * Every node is visited once *)
(* ================================================================== *)

Module CoverageFacts.
Import JsString JsValue Vocabulary Markup MarkupFacts TraversalFacts Program ProgramFacts Coverage.

Lemma treeKeys_unfold (node : htmlnode) :
  treeKeys node = nodeKeys node ++ flat_map treeKeys (pushedNodes node).
Proof.
  assert (H : forall l : list htmlnode,
             (fix forestKeys (l : list htmlnode) : list jsstring :=
                match l with
                | [] => []
                | n :: t => treeKeys n ++ forestKeys t
                end) l = flat_map treeKeys l).
  { induction l as [|n l IH]; [reflexivity|]. simpl. now rewrite IH. }
  destruct node as [items|[[|c cs]|] a t g]; simpl; try rewrite H; reflexivity.
Qed.

Lemma parserTree_pushedNodes (node : htmlnode) :
  parserTree node = true -> forallb parserTree (pushedNodes node) = true.
Proof.
  assert (H : forall l : list htmlnode,
             (fix parserForest (l : list htmlnode) : bool :=
                match l with
                | [] => true
                | n :: t => parserTree n && parserForest t
                end) l = forallb parserTree l).
  { induction l as [|n l IH]; [reflexivity|]. simpl. now rewrite IH. }
  destruct node as [items|[[|c cs]|] a t g]; simpl; try rewrite H; try reflexivity.
  - auto.
  - intro E. apply andb_true_iff in E as [_ E]. exact E.
Qed.

(** On a node of the parser, the two extractions return. *)
Lemma parserTree_nodeKeys (node : htmlnode) :
  parserTree node = true ->
  exists attrValue textValue,
    getAttributeTranslation node = Ok attrValue
    /\ getTextTranslation node = Ok textValue
    /\ (nonEmpty (rawAttrs node) || nonEmpty (rawText node) = true ->
        nodeKeys node = attrValue ++ textValue).
Proof.
  intro Hp.
  assert (Ha : exists attrValue, getAttributeTranslation node = Ok attrValue).
  { unfold getAttributeTranslation.
    destruct node as [items|cs a t [g|]]; cbn [getAttribute rawAttrs]; eauto.
    destruct (g (str "translate")) as [[|c k]|]; eauto;
      (destruct a as [attrs|]; [apply extractTranslationsFromString_total|];
       simpl in Hp; discriminate Hp). }
  assert (Ht : exists textValue, getTextTranslation node = Ok textValue).
  { unfold getTextTranslation.
    destruct (rawText node) as [[|c text]|]; eauto.
    destruct (includes (c :: text) (str "translate")); eauto.
    apply extractTranslationsFromString_total. }
  destruct Ha as [attrValue Ha], Ht as [textValue Ht].
  exists attrValue, textValue. repeat split; try assumption.
  intro Hne. unfold nodeKeys. now rewrite Hne, Ha, Ht.
Qed.

Lemma parseLoop_covers (fuel : nat) :
  forall (queue : list htmlnode) (results : list jsstring),
    (sizes queue <= fuel)%nat ->
    forallb parserTree queue = true ->
    exists found,
      parseLoop fuel queue results = Ok found
      /\ Permutation found (results ++ flat_map treeKeys queue).
Proof.
  induction fuel as [|fuel IH]; intros [|node rest] results Hfuel Hp.
  - exists results. split; [reflexivity|]. simpl. now rewrite app_nil_r.
  - rewrite <- sizes_queue in Hfuel. lia.
  - exists results. split; [reflexivity|]. simpl. now rewrite app_nil_r.
  - pose proof (sizes_queue node rest) as Hq.
    simpl in Hp. apply andb_true_iff in Hp as [Hnode Hrest].
    assert (Hp' : forallb parserTree (rest ++ pushedNodes node) = true).
    { rewrite forallb_app, Hrest. now apply parserTree_pushedNodes. }
    destruct (parserTree_nodeKeys node Hnode) as (attrValue & textValue & Ha & Ht & Hkeys).
    cbn [parseLoop].
    assert (Hgoal : forall results',
               Permutation results' (results ++ nodeKeys node) ->
               exists found,
                 parseLoop fuel (rest ++ pushedNodes node) results' = Ok found
                 /\ Permutation found (results ++ flat_map treeKeys (node :: rest))).
    { intros results' Hperm.
      destruct (IH (rest ++ pushedNodes node) results' ltac:(lia) Hp') as (found & Hrun & Hfound).
      exists found. split; [exact Hrun|].
      rewrite Hfound, Hperm. cbn [flat_map]. rewrite flat_map_app, treeKeys_unfold.
      rewrite <- !app_assoc. apply Permutation_app_head. apply Permutation_app_head.
      apply Permutation_app_comm. }
    destruct (nonEmpty (rawAttrs node) || nonEmpty (rawText node)) eqn:E.
    + rewrite Ha, Ht. cbn [bind]. apply Hgoal. now rewrite Hkeys.
    + apply Hgoal. unfold nodeKeys. rewrite E. now rewrite app_nil_r.
Qed.

(** ** The program tree *)

Lemma tsnode_nested_ind (P : tsnode -> Prop) :
  (forall self children, Forall P children -> P (TsNode self children)) ->
  forall node, P node.
Proof.
  intro H. fix IH 1. intros [self children]. apply H.
  induction children as [|child children IHc]; constructor; [apply IH|exact IHc].
Qed.

Lemma preorder_unfold (self : value) (children : list tsnode) :
  preorder (TsNode self children) = self :: flat_map preorder children.
Proof.
  assert (H : forall l : list tsnode,
             (fix forest (l : list tsnode) : list value :=
                match l with
                | [] => []
                | n :: t => preorder n ++ forest t
                end) l = flat_map preorder l).
  { induction l as [|n l IH]; [reflexivity|]. simpl. now rewrite IH. }
  simpl. now rewrite H.
Qed.

Lemma mapM_app {A B : Type} (f : A -> outcome B) (l1 l2 : list A) :
  mapM f (l1 ++ l2) = (x <- mapM f l1 ;; y <- mapM f l2 ;; Ok (x ++ y)).
Proof.
  induction l1 as [|a l1 IH]; simpl.
  - destruct (mapM f l2); reflexivity.
  - destruct (f a); simpl; try reflexivity. rewrite IH.
    destruct (mapM f l1); simpl; try reflexivity.
    destruct (mapM f l2); reflexivity.
Qed.

Lemma forEachRoot_preorder (roots : list tsnode) :
  Forall (fun node => forall parseResults,
            parseFiles node parseResults
            = (found <- mapM keysAt (preorder node) ;; Ok (parseResults ++ List.concat found)))
         roots ->
  forall parseResults,
    forEachRoot roots parseResults
    = (found <- mapM keysAt (flat_map preorder roots) ;; Ok (parseResults ++ List.concat found)).
Proof.
  induction 1 as [|node roots Hnode _ IH]; intro parseResults.
  - simpl. now rewrite app_nil_r.
  - cbn [forEachRoot flat_map]. rewrite Hnode, mapM_app.
    destruct (mapM keysAt (preorder node)) as [x| | |]; try reflexivity.
    cbn [bind]. rewrite IH.
    destruct (mapM keysAt (flat_map preorder roots)) as [y| | |]; try reflexivity.
    cbn [bind]. now rewrite concat_app, app_assoc.
Qed.

Lemma parseFiles_preorder (node : tsnode) :
  forall parseResults,
    parseFiles node parseResults
    = (found <- mapM keysAt (preorder node) ;; Ok (parseResults ++ List.concat found)).
Proof.
  induction node as [self children IH] using tsnode_nested_ind. intro parseResults.
  rewrite parseFiles_unfold, preorder_unfold. cbn [mapM].
  destruct (keysAt self) as [keys| | |]; try reflexivity.
  cbn [bind]. rewrite (forEachRoot_preorder children IH).
  destruct (mapM keysAt (flat_map preorder children)) as [found| | |]; try reflexivity.
  cbn [bind List.concat]. now rewrite app_assoc.
Qed.

Lemma parseTSAst_preorder (roots : list tsnode) :
  parseTSAst roots
  = (found <- mapM keysAt (flat_map preorder roots) ;; Ok (List.concat found)).
Proof.
  unfold parseTSAst. rewrite forEachRoot_preorder; [reflexivity|].
  apply Forall_forall. intros node _. apply parseFiles_preorder.
Qed.

End CoverageFacts.

Import CoverageFacts.

(** X7: on markup trees as the parser builds them (a node that has
    [getAttribute] has a raw attribute string), the traversal never throws,
    and its result is, up to the order, the candidates of every node of the
    forest, each node taken once, whether it hangs below [childNodes] or in
    a nested array. *)
Theorem traversal_visits_every_node_once (trees : list htmlnode) :
  forallb parserTree trees = true ->
  exists found,
    parseHTMLAst trees = Ok found
    /\ Permutation found (flat_map treeKeys trees).
Proof.
  intro H. unfold parseHTMLAst.
  destruct (parseLoop_covers (sizes trees) trees [] ltac:(lia) H) as (found & Hrun & Hperm).
  exists found. split; assumption.
Qed.

Lemma traversal_visits_every_node_once_witness :
  let inner := element (str "translate='a.b'") [(str "translate", str "a.b")]
                 (str "{{ 'c.d' | translate }}") [textNode (str "{{ 'c.d' | translate }}")] in
  let trees := [HtmlArray [textNode (str "{{ 'e.f' | translate }}")]; inner] in
  exists found,
    parseHTMLAst trees = Ok found
    /\ Permutation found (flat_map treeKeys trees).
Proof.
  intros inner trees. apply (traversal_visits_every_node_once trees). reflexivity.
Defined.

(** X8: the program extractor visits the nodes of each file depth first,
    every node once and the children of a call of the translation function
    too; its result is the keys extracted at each node, in that order, file
    after file, and the first node at which the key inference throws ends the
    whole run. *)
Theorem program_walk_is_depth_first (roots : list tsnode) :
  parseTSAst roots
  = (found <- mapM keysAt (flat_map preorder roots) ;; Ok (List.concat found)).
Proof. apply parseTSAst_preorder. Qed.

(** X9: the results of the files are put end to end: the run on the files
    [roots1] followed by the files [roots2] returns the keys of the first
    run, then those of the second, and returns nothing if either throws. *)
Theorem program_results_concatenate (roots1 roots2 : list tsnode) :
  parseTSAst (roots1 ++ roots2)
  = (keys1 <- parseTSAst roots1 ;; keys2 <- parseTSAst roots2 ;; Ok (keys1 ++ keys2)).
Proof.
  rewrite !parseTSAst_preorder, flat_map_app, mapM_app.
  destruct (mapM keysAt (flat_map preorder roots1)) as [x| | |]; try reflexivity.
  cbn [bind].
  destruct (mapM keysAt (flat_map preorder roots2)) as [y| | |]; try reflexivity.
  cbn [bind]. now rewrite concat_app.
Qed.

(* ================================================================== *)
(** * Further properties of the program extractor *)
(* ================================================================== *)

Lemma isInstantCall_not_nullish (node : value) :
  isInstantCall node = true -> nullish node = false.
Proof. destruct node; try reflexivity; discriminate. Qed.

(** X10: a call of the translation function without arguments ends the
    run: the first argument is [undefined], no probe resolves on it, and
    reading its [elements] throws. *)
Theorem call_without_arguments_throws
  (self : value) (children : list tsnode) (parseResults : list value) :
  isInstantCall self = true ->
  member self (str "arguments") = VArr [] ->
  parseFiles (TsNode self children) parseResults = TypeError.
Proof.
  intros Hcall Hargs. rewrite parseFiles_unfold. unfold keysAt.
  rewrite (isInstantCall_not_nullish self Hcall), Hcall, Hargs. reflexivity.
Qed.

Lemma call_without_arguments_throws_witness :
  parseTSAst
    [sourceFile
       [expressionStatement
          (callExpression (propertyAccess (identifier "translate") "instant") [])]]
  = TypeError.
Proof.
  unfold parseTSAst, sourceFile, expressionStatement. cbn [forEachRoot].
  rewrite parseFiles_unfold.
  change (keysAt _) with (@Ok (list value) []). cbn [bind app forEachRoot].
  rewrite parseFiles_unfold.
  change (keysAt _) with (@Ok (list value) []). cbn [bind app forEachRoot].
  unfold callExpression.
  rewrite (call_without_arguments_throws
             (object [field "kind" (VNum 207);
                      field "expression"
                        (Program.self (propertyAccess (identifier "translate") "instant"));
                      field "arguments" (VArr (map Program.self []))])
             (propertyAccess (identifier "translate") "instant" :: []) []
             eq_refl eq_refl).
  reflexivity.
Defined.

(** X11: only the first argument of a call of the translation function is
    read: two calls whose first arguments are the same give the same keys,
    whatever their other arguments are. *)
Theorem only_first_argument_is_read (node1 node2 first : value) (rest1 rest2 : list value) :
  isInstantCall node1 = true ->
  isInstantCall node2 = true ->
  member node1 (str "arguments") = VArr (first :: rest1) ->
  member node2 (str "arguments") = VArr (first :: rest2) ->
  keysAt node1 = keysAt node2.
Proof.
  intros Hcall1 Hcall2 Hargs1 Hargs2. unfold keysAt.
  rewrite (isInstantCall_not_nullish node1 Hcall1), (isInstantCall_not_nullish node2 Hcall2).
  rewrite Hcall1, Hcall2, Hargs1, Hargs2. reflexivity.
Qed.

Lemma only_first_argument_is_read_witness :
  let callee := propertyAccess (identifier "translate") "instant" in
  keysAt (Program.self (callExpression callee
                          [stringLiteral (str "a.b"); stringLiteral (str "c.d")]))
  = keysAt (Program.self (callExpression callee [stringLiteral (str "a.b")])).
Proof.
  intro callee.
  apply (only_first_argument_is_read _ _ (Program.self (stringLiteral (str "a.b")))
           [Program.self (stringLiteral (str "c.d"))] []); reflexivity.
Defined.

(** X12: when no probe resolves on the first argument of a call of the
    translation function and the argument has no elements, or an empty array
    of them, the run ends in a TypeError at that call: so it does for an
    empty string literal and for an empty array literal. *)
Theorem unresolved_first_argument_throws
  (self : value) (children : list tsnode) (parseResults : list value)
  (fields : list (jsstring * value)) (rest : list value) :
  isInstantCall self = true ->
  member self (str "arguments") = VArr (VObj fields :: rest) ->
  (forall validField, In validField validFields ->
     truthy (Lodash.get (VObj fields) (Some validField)) = false) ->
  lookup fields (str "undefined") = None ->
  lookup fields (str "elements") = None \/ lookup fields (str "elements") = Some (VArr []) ->
  parseFiles (TsNode self children) parseResults = TypeError.
Proof.
  intros Hcall Hargs Hprobes Hundef Helements. rewrite parseFiles_unfold. unfold keysAt.
  rewrite (isInstantCall_not_nullish self Hcall), Hcall, Hargs.
  cbn [firstOf hd bind mapM].
  now rewrite (translationKeyOf_throws fields Hprobes Hundef Helements).
Qed.

Ltac each_probe :=
  let f := fresh "validField" in
  let H := fresh "H" in
  intros f H; repeat (destruct H as [<-|H]; [reflexivity|]); contradiction.

Lemma unresolved_first_argument_throws_witness :
  let callee := propertyAccess (identifier "translate") "instant" in
  parseFiles (callExpression callee [stringLiteral []]) [] = TypeError
  /\ parseFiles (callExpression callee [arrayLiteral []]) [] = TypeError.
Proof.
  intro callee. split.
  - apply (unresolved_first_argument_throws _ _ _
             [field "kind" (VNum 10); field "text" (VStr [])] []).
    + reflexivity.
    + reflexivity.
    + each_probe.
    + reflexivity.
    + left. reflexivity.
  - apply (unresolved_first_argument_throws _ _ _
             [field "kind" (VNum 203); field "elements" (VArr [])] []).
    + reflexivity.
    + reflexivity.
    + each_probe.
    + reflexivity.
    + right. reflexivity.
Defined.

(** X13: for a property access on an identifier, as in [keys.title], the
    probe [expression.escapedText] comes before the probe [name.escapedText]:
    the key is the name of the object, whatever the property is. *)
Theorem property_access_yields_object_name
  (fields : list (jsstring * value)) (objectName : jsstring) :
  truthy (member (VObj fields) (str "text")) = false ->
  lookup fields (str "expression.escapedText") = None ->
  member (member (VObj fields) (str "expression")) (str "escapedText") = VStr objectName ->
  objectName <> [] ->
  translationKeyOf (VObj fields) = Ok (VStr objectName).
Proof.
  intros Htext Hown Hname Hne.
  assert (Hget1 : Lodash.get (VObj fields) (Some (str "text")) = member (VObj fields) (str "text"))
    by reflexivity.
  assert (Hget2 : Lodash.get (VObj fields) (Some (str "expression.escapedText"))
                  = VStr objectName).
  { unfold Lodash.get, Lodash.castPath, Lodash.isKey.
    change (negb (existsb (Ascii.eqb ".") (str "expression.escapedText"))) with false.
    cbn [orb nullish hasOwn]. rewrite Hown.
    change (Lodash.stringToPath (str "expression.escapedText"))
      with [str "expression"; str "escapedText"].
    cbn [Lodash.baseGet nullish].
    destruct (member (VObj fields) (str "expression")) eqn:E; try discriminate Hname;
      cbn [nullish]; exact Hname. }
  rewrite (translationKeyOf_found _ (str "expression.escapedText")); [now rewrite Hget2|].
  unfold validFields. cbn [find]. rewrite Hget1, Htext, Hget2.
  destruct objectName; [contradiction|reflexivity].
Qed.

Lemma property_access_yields_object_name_witness :
  translationKeyOf (Program.self (propertyAccess (identifier "keys") "title"))
  = Ok (VStr (str "keys")).
Proof.
  apply (property_access_yields_object_name
           [field "kind" (VNum 205);
            field "expression" (Program.self (identifier "keys"));
            field "name" (Program.self (identifier "title"))]).
  - reflexivity.
  - reflexivity.
  - reflexivity.
  - discriminate.
Defined.

(* ================================================================== *)
(** * Further properties of the resolver *)
(* ================================================================== *)

Module DedupFacts.
Import JsString JsValue JsStringFacts Resolver Coverage.

Lemma sameValueZero_eq (a b : value) : sameValueZero a b = true -> a = b.
Proof.
  destruct a, b; simpl; intro H; try discriminate; try reflexivity.
  - apply Bool.eqb_prop in H. now subst.
  - apply Z.eqb_eq in H. now subst.
  - apply jsstring_eqb_eq in H. now subst.
Qed.

Lemma sameValueZero_refl (a : value) : primitive a = true -> sameValueZero a a = true.
Proof.
  destruct a; simpl; intro H; try discriminate; try reflexivity.
  - apply Bool.eqb_reflx.
  - apply Z.eqb_refl.
  - apply jsstring_eqb_refl.
Qed.

Lemma seen_iff (v : value) (seen : list value) :
  primitive v = true -> existsb (sameValueZero v) seen = true <-> In v seen.
Proof.
  intro Hp. rewrite existsb_exists. split.
  - intros (x & Hin & Heq). apply sameValueZero_eq in Heq. now subst.
  - intro Hin. exists v. split; [exact Hin|now apply sameValueZero_refl].
Qed.

Lemma dedup_spec (l : list value) :
  forallb primitive l = true ->
  forall seen,
    NoDup (dedup seen l)
    /\ (forall v, In v (dedup seen l) <-> In v l /\ ~ In v seen).
Proof.
  induction l as [|a l IH]; intros Hp seen.
  - split; [constructor|]. simpl. tauto.
  - simpl in Hp. apply andb_true_iff in Hp as [Ha Hl]. simpl.
    destruct (existsb (sameValueZero a) seen) eqn:E.
    + apply seen_iff in E; [|exact Ha].
      destruct (IH Hl seen) as [Hnd Hin]. split; [exact Hnd|].
      intro v. rewrite Hin. split; [tauto|].
      intros [[->|Hv] Hns]; [contradiction|tauto].
    + assert (Hns : ~ In a seen).
      { intro Hin. apply (seen_iff a seen Ha) in Hin. congruence. }
      destruct (IH Hl (a :: seen)) as [Hnd Hin]. split.
      * constructor; [|exact Hnd]. rewrite Hin. simpl. tauto.
      * intro v. simpl. rewrite Hin. simpl. split.
        -- intros [<-|[Hv Hn]]; [tauto|]. split; [tauto|]. tauto.
        -- intros [[<-|Hv] Hn]; [tauto|].
           assert (Hpv : primitive v = true)
             by (rewrite forallb_forall in Hl; now apply Hl).
           destruct (sameValueZero v a) eqn:Eva.
           ++ left. apply sameValueZero_eq in Eva. now subst.
           ++ right. split; [exact Hv|]. intros [->|H']; [|tauto].
              rewrite (sameValueZero_refl v Hpv) in Eva. discriminate.
Qed.

End DedupFacts.

Module ResolverMore.
Import JsString JsValue JsStringFacts Vocabulary Resolver ResolverFacts Coverage DedupFacts.

Lemma dedup_unchanged (l : list value) :
  forallb primitive l = true ->
  NoDup l ->
  forall seen, (forall v, In v l -> ~ In v seen) -> dedup seen l = l.
Proof.
  induction l as [|a l IH]; intros Hp Hnd seen Hfresh; [reflexivity|].
  simpl in Hp. apply andb_true_iff in Hp as [Ha Hl].
  inversion Hnd as [|? ? Hnotin Hnd']; subst. simpl.
  destruct (existsb (sameValueZero a) seen) eqn:E.
  - apply seen_iff in E; [|exact Ha]. exfalso. apply (Hfresh a); [now left|exact E].
  - f_equal. apply IH; try assumption.
    intros v Hv [<-|Hs]; [contradiction|]. apply (Hfresh v); [now right|exact Hs].
Qed.


Lemma setField_keys (fields : list (jsstring * value)) (key : jsstring) (v : value) :
  map fst (setField fields key v)
  = match lookup fields key with
    | Some _ => map fst fields
    | None => map fst fields ++ [key]
    end.
Proof.
  induction fields as [|[k x] fields IH]; simpl; [reflexivity|].
  destruct (JsString.eqb k key) eqn:E; simpl; [reflexivity|].
  rewrite IH. destruct (lookup fields key); reflexivity.
Qed.


Lemma walk_from_falsy (path : list jsstring) :
  fold_left (fun acc current => if truthy acc then member acc current else VStr [])
            path (VStr []) = VStr [].
Proof. induction path as [|k path IH]; [reflexivity|exact IH]. Qed.

Lemma split_no_dot (s : jsstring) :
  existsb (Ascii.eqb "."%char) s = false -> split "."%char s = [s].
Proof.
  induction s as [|c s IH]; [reflexivity|]. cbn [existsb split]. intro H.
  apply orb_false_iff in H as [Hc Hs]. rewrite Ascii.eqb_sym in Hc. rewrite Hc.
  now rewrite (IH Hs).
Qed.

Lemma split_at_dot (x y : jsstring) :
  existsb (Ascii.eqb "."%char) x = false ->
  split "."%char (x ++ "."%char :: y) = x :: split "."%char y.
Proof.
  induction x as [|c x IH]; intro H.
  - reflexivity.
  - cbn [existsb] in H. apply orb_false_iff in H as [Hc Hx]. rewrite Ascii.eqb_sym in Hc.
    cbn [app split]. rewrite Hc. now rewrite (IH Hx).
Qed.

Lemma plainSegment_parts (segment : jsstring) :
  plainSegment segment = true ->
  Lodash.reservedKey segment = false
  /\ existsb (JsString.eqb segment) objectMembers = false
  /\ JsString.eqb segment (str "length") = false
  /\ Lodash.isIndex segment = false.
Proof.
  unfold plainSegment. rewrite !andb_true_iff, !negb_true_iff. tauto.
Qed.

(** An object inherits no member under a plain name. *)
Lemma inherits_plain (fields : list (jsstring * value)) (segment : jsstring) :
  plainSegment segment = true -> inherits (VObj fields) segment = false.
Proof.
  intro H. destruct (plainSegment_parts segment H) as (_ & Hobject & _).
  cbn [inherits]. now destruct (lookup fields segment).
Qed.

Lemma plainName_parts (segment : jsstring) :
  plainName segment = true ->
  plainSegment segment = true
  /\ Lodash.reservedKey segment = false
  /\ Lodash.isIndex segment = false
  /\ existsb (Ascii.eqb "."%char) segment = false.
Proof.
  unfold plainName. rewrite andb_true_iff, negb_true_iff. intros [H Hdot].
  destruct (plainSegment_parts segment H) as (Hr & _ & _ & Hx). tauto.
Qed.

Lemma digit_not_dot (c : ascii) (d : N) : digit c = Some d -> Ascii.eqb "."%char c = false.
Proof.
  intro H. destruct (Ascii.eqb "."%char c) eqn:E; [|reflexivity].
  apply Ascii.eqb_eq in E. subst c. discriminate H.
Qed.

Lemma digits_no_dot (s : jsstring) :
  forall acc m, digits s acc = Some m -> existsb (Ascii.eqb "."%char) s = false.
Proof.
  induction s as [|c s IH]; intros acc m H; [reflexivity|].
  cbn [digits] in H. destruct (digit c) as [d|] eqn:E; [|discriminate].
  cbn [existsb]. rewrite (digit_not_dot c d E). exact (IH _ _ H).
Qed.

Lemma parseUint_no_dot (s : jsstring) (m : N) :
  parseUint s = Some m -> existsb (Ascii.eqb "."%char) s = false.
Proof.
  destruct s as [|c [|c' s]]; cbn [parseUint existsb]; intro H; try discriminate.
  - now rewrite (digit_not_dot c m H).
  - destruct (Ascii.eqb c (ascii_of_nat 48)); [discriminate|].
    exact (digits_no_dot (c :: c' :: s) 0%N m H).
Qed.

Lemma arrayIndex_parts (segment : jsstring) (i : nat) :
  arrayIndex segment = Some i ->
  Lodash.reservedKey segment = false
  /\ Lodash.isIndex segment = true
  /\ existsb (Ascii.eqb "."%char) segment = false.
Proof.
  unfold arrayIndex, Lodash.isIndex. intro H.
  destruct (parseUint segment) as [m|] eqn:E; [|discriminate].
  destruct (m <? 4294967295)%N eqn:Em; [|discriminate].
  split; [|split].
  - unfold Lodash.reservedKey.
    destruct (JsString.eqb segment (str "__proto__")) eqn:E1;
      [apply jsstring_eqb_eq in E1; subst; discriminate E|].
    destruct (JsString.eqb segment (str "constructor")) eqn:E2;
      [apply jsstring_eqb_eq in E2; subst; discriminate E|].
    destruct (JsString.eqb segment (str "prototype")) eqn:E3;
      [apply jsstring_eqb_eq in E3; subst; discriminate E|].
    reflexivity.
  - apply N.ltb_lt in Em. apply N.ltb_lt. lia.
  - exact (parseUint_no_dot segment m E).
Qed.

Lemma setItem_empty (i : nat) (v : value) : setItem [] i v = repeat VUndef i ++ [v].
Proof. induction i as [|i IH]; [reflexivity|]. simpl. now rewrite IH. Qed.

(** A missing first segment sends the candidate to Unresolved. *)
Lemma walk_missing (translationsObject : value) (key : jsstring) (rest : list jsstring) :
  truthy (member translationsObject key) = false ->
  truthy (walk translationsObject (key :: rest)) = false.
Proof.
  intro H. unfold walk. cbn [fold_left].
  destruct (truthy translationsObject).
  - destruct rest as [|k rest]; [exact H|].
    cbn [fold_left]. rewrite H. now rewrite walk_from_falsy.
  - now rewrite walk_from_falsy.
Qed.




End ResolverMore.

Import DedupFacts ResolverMore.

(** X14: [filterResults] on candidates that are primitive values (strings,
    [undefined]) returns a list without duplicates that has exactly the
    members of its argument, and returns a list that has no duplicates as it
    is, in the same order. *)
Theorem filterResults_removes_duplicates (results : list value) :
  forallb primitive results = true ->
  NoDup (filterResults results)
  /\ (forall v, In v (filterResults results) <-> In v results)
  /\ (NoDup results -> filterResults results = results).
Proof.
  intro Hp. unfold filterResults.
  destruct (dedup_spec results Hp []) as [Hnd Hin]. split; [exact Hnd|]. split.
  - intro v. rewrite Hin. simpl. tauto.
  - intro H. apply dedup_unchanged; auto.
Qed.

Lemma filterResults_removes_duplicates_witness :
  NoDup (filterResults [VStr (str "a.b"); VUndef; VStr (str "a.b"); VStr (str "c"); VUndef])
  /\ filterResults [VStr (str "c"); VStr (str "a.b")] = [VStr (str "c"); VStr (str "a.b")].
Proof.
  split.
  - apply (filterResults_removes_duplicates
             [VStr (str "a.b"); VUndef; VStr (str "a.b"); VStr (str "c"); VUndef] eq_refl).
  - apply (filterResults_removes_duplicates [VStr (str "c"); VStr (str "a.b")] eq_refl).
    repeat constructor; simpl; intuition discriminate.
Defined.

(** X15: [_.set] on an object never reorders its keys: among keys that are
    no array indices (those an object lists in the order of their creation),
    the first segment of the path keeps its place when it is already a key,
    and goes last when it is new; so the keys of the two results come in the
    order in which their first candidates were filed. *)
Theorem set_keeps_key_order
  (fields : list (jsstring * value)) (key : jsstring) (rest : list jsstring)
  (v object' : value) :
  Forall (fun k => arrayIndex k = None) (key :: map fst fields) ->
  Lodash.reservedKey key = false ->
  Lodash.set (VObj fields) (key :: rest) v = Ok object' ->
  exists fields',
    object' = VObj fields'
    /\ map fst fields' = match lookup fields key with
                         | Some _ => map fst fields
                         | None => map fst fields ++ [key]
                         end.
Proof.
  intros _ Hkey. unfold Lodash.set. cbn [isObject Lodash.baseSet nullish]. rewrite Hkey.
  destruct rest as [|next rest].
  - cbn [Lodash.assignValue]. intro H. injection H as <-.
    eexists. split; [reflexivity|apply setField_keys].
  - destruct (Lodash.baseSet _ (next :: rest) v) as [child| | |]; try discriminate.
    cbn [bind Lodash.assignValue]. intro H. injection H as <-.
    eexists. split; [reflexivity|apply setField_keys].
Qed.

Lemma set_keeps_key_order_witness :
  exists fields',
    VObj [(str "b", VStr (str "x")); (str "a", VObj [(str "c", VStr (str "a.c"))])]
    = VObj fields'
    /\ map fst fields' = [str "b"; str "a"].
Proof.
  apply (set_keeps_key_order [(str "b", VStr (str "x"))] (str "a") [str "c"]
           (VStr (str "a.c"))); [repeat constructor|reflexivity|reflexivity].
Defined.

(** X17: two candidates of which one is the other followed by a further
    segment overwrite each other in Unresolved: of [x] and [x.y], both
    missing from the catalog, only the one filed last is left.  The segments
    are plain names: no name that [_.set] refuses, no name of a member that
    objects inherit, neither [length] nor a number. *)
Theorem prefix_candidates_overwrite_each_other
  (catalog : list (jsstring * value)) (x y : jsstring) :
  plainName x = true ->
  plainName y = true ->
  truthy (member (VObj catalog) x) = false ->
  createJSONTranslations (VObj catalog) [VStr x; VStr (x ++ "."%char :: y)]
  = Ok (VObj [], VObj [(x, VObj [(y, VStr (x ++ "."%char :: y))])])
  /\ createJSONTranslations (VObj catalog) [VStr (x ++ "."%char :: y); VStr x]
     = Ok (VObj [], VObj [(x, VStr x)]).
Proof.
  intros Hx Hy Hmiss. set (translationsObject := VObj catalog) in *.
  destruct (plainName_parts x Hx) as (Hpx & Hrx & _ & Hdx).
  destruct (plainName_parts y Hy) as (Hpy & Hry & Hiy & Hdy).
  assert (Hsx : split "."%char x = [x]) by now apply split_no_dot.
  assert (Hsxy : split "."%char (x ++ "."%char :: y) = [x; y])
    by (rewrite split_at_dot by assumption; now rewrite split_no_dot).
  pose proof (walk_missing translationsObject x [] Hmiss) as Hw1.
  pose proof (walk_missing translationsObject x [y] Hmiss) as Hw2.
  assert (Hwalk : forall rest, walkInherits translationsObject (x :: rest) = false).
  { intro rest. cbn [walkInherits]. unfold translationsObject at 2.
    rewrite (inherits_plain catalog x Hpx).
    destruct rest as [|s rest]; [apply andb_false_r|].
    cbn [walkInherits orb]. rewrite Hmiss. apply andb_false_r. }
  assert (Hfile1 : forall acc unresolved,
             fileKey translationsObject (acc, VObj unresolved) (VStr x)
             = (unresolved' <- Lodash.set (VObj unresolved) [x] (VStr x) ;;
                Ok (acc, unresolved'))).
  { intros acc unresolved. rewrite fileKey_cases, Hsx, Hwalk, Hw1.
    cbn [Lodash.inheritedOnPath nullish]. now rewrite Hrx. }
  assert (Hfile2 : forall acc unresolved,
             fileKey translationsObject (acc, VObj unresolved) (VStr (x ++ "."%char :: y))
             = (unresolved' <- Lodash.set (VObj unresolved) [x; y]
                                 (VStr (x ++ "."%char :: y)) ;;
                Ok (acc, unresolved'))).
  { intros acc unresolved. rewrite fileKey_cases, Hsxy, Hwalk, Hw2.
    cbn [Lodash.inheritedOnPath nullish]. rewrite Hrx, (inherits_plain unresolved x Hpx).
    cbn [orb].
    destruct (if isObject (member (VObj unresolved) x) then member (VObj unresolved) x
              else if Lodash.isIndex y then VArr [] else VObj []); cbn [nullish];
      rewrite ?Hry; reflexivity. }
  unfold createJSONTranslations. cbn [reduceKeys].
  split.
  - rewrite Hfile1.
    unfold Lodash.set at 1. cbn [isObject Lodash.baseSet nullish]. rewrite Hrx.
    cbn [Lodash.assignValue setField bind].
    rewrite Hfile2.
    unfold Lodash.set. cbn [isObject Lodash.baseSet nullish member lookup]. rewrite Hrx, Hry.
    rewrite jsstring_eqb_refl. cbn [isObject]. rewrite Hiy.
    cbn [nullish Lodash.assignValue setField bind]. rewrite jsstring_eqb_refl. reflexivity.
  - rewrite Hfile2.
    unfold Lodash.set at 1. cbn [isObject Lodash.baseSet nullish member lookup]. rewrite Hrx, Hry.
    cbn [isObject]. rewrite Hiy.
    cbn [nullish Lodash.assignValue setField bind].
    rewrite Hfile1.
    unfold Lodash.set. cbn [isObject Lodash.baseSet nullish]. rewrite Hrx.
    cbn [Lodash.assignValue setField bind]. rewrite jsstring_eqb_refl. reflexivity.
Qed.

Lemma prefix_candidates_overwrite_each_other_witness :
  createJSONTranslations (object [field "menu" (VStr (str "Menu"))])
                         [VStr (str "errors"); VStr (str "errors.timeout")]
  = Ok (VObj [],
        VObj [(str "errors", VObj [(str "timeout", VStr (str "errors.timeout"))])]).
Proof.
  apply (proj1 (prefix_candidates_overwrite_each_other
                  [field "menu" (VStr (str "Menu"))] (str "errors") (str "timeout")
                  eq_refl eq_refl eq_refl)).
Defined.

(** X18: a candidate whose second segment is a number, as [errors.404],
    missing from the catalog, is filed in an array: [_.set] creates an array
    for the first segment and writes the candidate at that index, leaving a
    hole at every index before it.  The first segment is a plain name. *)
Theorem numeric_segment_makes_sparse_array
  (catalog : list (jsstring * value)) (x n : jsstring) (i : nat) :
  plainName x = true ->
  arrayIndex n = Some i ->
  truthy (member (VObj catalog) x) = false ->
  createJSONTranslations (VObj catalog) [VStr (x ++ "."%char :: n)]
  = Ok (VObj [], VObj [(x, VArr (repeat VUndef i ++ [VStr (x ++ "."%char :: n)]))]).
Proof.
  intros Hx Hn Hmiss. set (translationsObject := VObj catalog) in *.
  destruct (plainName_parts x Hx) as (Hpx & Hrx & _ & Hdx).
  destruct (arrayIndex_parts n i Hn) as (Hrn & Hin & Hdn).
  assert (Hs : split "."%char (x ++ "."%char :: n) = [x; n])
    by (rewrite split_at_dot by assumption; now rewrite split_no_dot).
  pose proof (walk_missing translationsObject x [n] Hmiss) as Hw.
  assert (Hwalk : walkInherits translationsObject [x; n] = false).
  { cbn [walkInherits]. unfold translationsObject at 2.
    rewrite (inherits_plain catalog x Hpx). cbn [orb]. rewrite Hmiss. apply andb_false_r. }
  unfold createJSONTranslations. cbn [reduceKeys].
  rewrite fileKey_cases, Hs, Hwalk, Hw.
  cbn [Lodash.inheritedOnPath nullish member lookup isObject]. rewrite Hrx, Hin, Hrn.
  cbn [inherits lookup].
  destruct (plainSegment_parts x Hpx) as (_ & -> & _). cbn [orb].
  unfold Lodash.set. cbn [isObject Lodash.baseSet nullish member lookup]. rewrite Hrx, Hrn.
  cbn [isObject]. rewrite Hin. cbn [nullish Lodash.assignValue]. rewrite Hn.
  cbn [bind setField]. now rewrite setItem_empty.
Qed.

Lemma numeric_segment_makes_sparse_array_witness :
  createJSONTranslations (object []) [VStr (str "errors.2")]
  = Ok (VObj [], VObj [(str "errors", VArr [VUndef; VUndef; VStr (str "errors.2")])]).
Proof.
  apply (numeric_segment_makes_sparse_array [] (str "errors") (str "2") 2
           eq_refl eq_refl eq_refl).
Defined.



(** X20: the resolver files strings only: when a candidate that is no
    string (as the [undefined] text of an array element that is no literal)
    is among the keys, [createJSONTranslations] returns no result. *)
Theorem non_string_candidate_aborts (translationsObject : value) (translationKeys : list value) :
  existsb (fun key => negb (isString key)) translationKeys = true ->
  forall result, createJSONTranslations translationsObject translationKeys <> Ok result.
Proof.
  unfold createJSONTranslations. generalize (VObj [], VObj []).
  induction translationKeys as [|key keys IH]; intros state H result; [discriminate|].
  cbn [existsb] in H. cbn [reduceKeys].
  destruct (isString key) eqn:E.
  - cbn [negb orb] in H.
    destruct (fileKey translationsObject state key) as [state'| | |]; try discriminate.
    cbn [bind]. now apply IH.
  - destruct state as [acc unresolvedTranslations].
    destruct key; try discriminate E; discriminate.
Qed.

Lemma non_string_candidate_aborts_witness :
  createJSONTranslations (object []) [VStr (str "k"); VUndef]
  <> Ok (object [], object [field "k" (VStr (str "k"))]).
Proof.
  apply (non_string_candidate_aborts (object []) [VStr (str "k"); VUndef]). reflexivity.
Defined.

(** X21: a value the resolver takes from the catalog is the value that
    [_.get] reads in the catalog at the path of the candidate: the leaf
    string, or the whole object when the candidate names a group of keys. *)
Theorem resolved_value_is_catalog_value (translationsObject : value) (path : list jsstring) :
  truthy (walk translationsObject path) = true ->
  walk translationsObject path = Lodash.baseGet translationsObject path.
Proof.
  unfold walk. revert translationsObject.
  induction path as [|key path IH]; intros acc H; [reflexivity|].
  cbn [fold_left Lodash.baseGet] in *.
  destruct (truthy acc) eqn:E.
  - replace (nullish acc) with false by (destruct acc; try reflexivity; discriminate E).
    now apply IH.
  - rewrite walk_from_falsy in H. discriminate H.
Qed.

Lemma resolved_value_is_catalog_value_witness :
  let catalog := object [field "a" (object [field "b" (VStr (str "Hello"))])] in
  walk catalog [str "a"] = Lodash.baseGet catalog [str "a"].
Proof.
  intro catalog. apply (resolved_value_is_catalog_value catalog [str "a"]). reflexivity.
Defined.

(* ================================================================== *)
(** * The discovery of the files *)
(* ================================================================== *)

Module FilesFacts.
Import JsString JsValue JsStringFacts Files Coverage.

Lemma startsWith_app_r (needle s t : jsstring) :
  startsWith needle s = true -> startsWith needle (s ++ t) = true.
Proof.
  revert s; induction needle as [|a needle IH]; intros s H; [reflexivity|].
  destruct s as [|b s]; [discriminate|]. simpl in *.
  apply andb_true_iff in H as [Hab H]. rewrite Hab. simpl. now apply IH.
Qed.

Lemma startsWith_self_app (s t : jsstring) : startsWith s (s ++ t) = true.
Proof.
  induction s as [|a s IH]; [reflexivity|]. simpl. now rewrite Ascii.eqb_refl.
Qed.

Lemma endsWith_app_l (p n suffix : jsstring) :
  endsWith n suffix = true -> endsWith (p ++ n) suffix = true.
Proof.
  unfold endsWith. intro H. rewrite rev_app_distr. now apply startsWith_app_r.
Qed.

Lemma resolveChild_shape (currentPath n : jsstring) :
  exists sep, resolveChild currentPath n = (currentPath ++ sep) ++ n.
Proof.
  unfold resolveChild. destruct (JsString.eqb currentPath (str "/")).
  - exists []. now rewrite app_nil_r.
  - exists (str "/"). now rewrite app_assoc.
Qed.

Lemma resolveChild_endsWith (currentPath n suffix : jsstring) :
  endsWith n suffix = true -> endsWith (resolveChild currentPath n) suffix = true.
Proof.
  intro H. destruct (resolveChild_shape currentPath n) as [sep ->].
  now apply endsWith_app_l.
Qed.

Lemma resolveChild_startsWith (root currentPath n : jsstring) :
  startsWith root currentPath = true -> startsWith root (resolveChild currentPath n) = true.
Proof.
  intro H. destruct (resolveChild_shape currentPath n) as [sep ->].
  rewrite <- app_assoc. now apply startsWith_app_r.
Qed.

(** A name cannot end with [.html] and with [.ts]. *)
Lemma html_is_not_ts (n : jsstring) : isHtml n = true -> isTs n = false.
Proof.
  unfold isHtml, isTs, endsWith.
  change (rev (str ".html")) with (str "lmth."). change (rev (str ".ts")) with (str "st.").
  destruct (rev n) as [|c r]; [discriminate|].
  cbn [str list_ascii_of_string startsWith]. intro H.
  apply andb_true_iff in H as [H _]. apply Ascii.eqb_eq in H. subst c.
  reflexivity.
Qed.

Lemma dirent_nested_ind (P : dirent -> Prop) :
  (forall n, P (File n)) ->
  (forall n entries, Forall P entries -> P (Directory n entries)) ->
  (forall n, P (Other n)) ->
  forall entry, P entry.
Proof.
  intros Hfile Hdir Hother. fix IH 1. intros [n|n entries|n].
  - apply Hfile.
  - apply Hdir. induction entries as [|e entries IHe]; constructor; [apply IH|exact IHe].
  - apply Hother.
Qed.

Lemma filesOf_directory (suffix : jsstring -> bool) (currentPath n : jsstring)
  (sub : list dirent) :
  filesOf suffix currentPath (Directory n sub) = filesBelow suffix (resolveChild currentPath n) sub.
Proof.
  unfold filesBelow. simpl. generalize (resolveChild currentPath n). intro path.
  induction sub as [|e sub IH]; [reflexivity|]. simpl. now rewrite IH.
Qed.

Lemma directories_directory (n : jsstring) (sub : list dirent) :
  directories (Directory n sub) = S (directoriesIn sub).
Proof.
  assert (H : forall l : list dirent,
             (fix below (l : list dirent) : nat :=
                match l with
                | [] => O
                | e :: t => (directories e + below t)%nat
                end) l = directoriesIn l).
  { induction l as [|e l IH]; [reflexivity|]. unfold directoriesIn in *. simpl. now rewrite IH. }
  simpl. now rewrite H.
Qed.

Lemma pending_app (suffix : jsstring -> bool) (q1 q2 : list (jsstring * list dirent)) :
  pending suffix (q1 ++ q2) = pending suffix q1 ++ pending suffix q2.
Proof. unfold pending. apply flat_map_app. Qed.

Lemma queued_app (q1 q2 : list (jsstring * list dirent)) :
  queued (q1 ++ q2) = (queued q1 + queued q2)%nat.
Proof.
  induction q1 as [|pe q1 IH]; [reflexivity|].
  change (queued ((pe :: q1) ++ q2))
    with (S (directoriesIn (snd pe)) + queued (q1 ++ q2))%nat.
  change (queued (pe :: q1)) with (S (directoriesIn (snd pe)) + queued q1)%nat.
  lia.
Qed.

(** What reading one directory does to the state: the files of the
    directory are found, its subdirectories are queued. *)
Lemma visit_entries (currentPath : jsstring) (entries : list dirent) :
  forall state,
    let state' := fold_left (visitEntry currentPath) entries state in
    Permutation (htmlFiles state' ++ pending isHtml (pathsToIterate state'))
                (htmlFiles state ++ pending isHtml (pathsToIterate state)
                 ++ filesBelow isHtml currentPath entries)
    /\ Permutation (tsFiles state' ++ pending isTs (pathsToIterate state'))
                   (tsFiles state ++ pending isTs (pathsToIterate state)
                    ++ filesBelow isTs currentPath entries)
    /\ queued (pathsToIterate state')
       = (queued (pathsToIterate state) + directoriesIn entries)%nat.
Proof.
  induction entries as [|e entries IH]; intro state.
  - cbn. rewrite !app_nil_r. repeat split; auto.
  - cbn [fold_left]. cbv zeta in *.
    destruct (IH (visitEntry currentPath state e)) as (Hh & Ht & Hq).
    split; [|split].
    + rewrite Hh. clear Hh Ht Hq IH.
      unfold filesBelow. cbn [flat_map]. fold (filesBelow isHtml currentPath entries).
      destruct e as [n|n sub|n]; cbn [visitEntry name].
      * fold (isHtml n). fold (isTs n). cbn [filesOf].
        destruct (isHtml n) eqn:Eh; cbn [orb htmlFiles pathsToIterate].
        -- rewrite <- !app_assoc. apply Permutation_app_head. cbn [app].
           apply Permutation_middle.
        -- destruct (isTs n); reflexivity.
      * cbn [htmlFiles pathsToIterate]. rewrite pending_app, filesOf_directory.
        unfold pending at 2. cbn [flat_map fst snd]. rewrite app_nil_r.
        rewrite <- !app_assoc. reflexivity.
      * reflexivity.
    + rewrite Ht. clear Hh Ht Hq IH.
      unfold filesBelow. cbn [flat_map]. fold (filesBelow isTs currentPath entries).
      destruct e as [n|n sub|n]; cbn [visitEntry name].
      * fold (isHtml n). fold (isTs n). cbn [filesOf].
        destruct (isHtml n) eqn:Eh; cbn [orb tsFiles pathsToIterate].
        -- now rewrite (html_is_not_ts n Eh).
        -- destruct (isTs n); cbn [tsFiles pathsToIterate]; [|reflexivity].
           rewrite <- !app_assoc. apply Permutation_app_head. cbn [app].
           apply Permutation_middle.
      * cbn [tsFiles pathsToIterate]. rewrite pending_app, filesOf_directory.
        unfold pending at 2. cbn [flat_map fst snd]. rewrite app_nil_r.
        rewrite <- !app_assoc. reflexivity.
      * reflexivity.
    + rewrite Hq. clear Hh Ht Hq IH. unfold directoriesIn. cbn [fold_right].
      fold (directoriesIn entries).
      destruct e as [n|n sub|n]; cbn [visitEntry name].
      * destruct (endsWith n (str ".html") || endsWith n (str ".ts"));
          [destruct (endsWith n (str ".html"))|]; cbn [pathsToIterate directories]; lia.
      * cbn [pathsToIterate]. rewrite queued_app, directories_directory.
        unfold queued at 2. cbn [fold_right snd]. lia.
      * cbn [directories]. lia.
Qed.

Lemma findLoop_finds (fuel : nat) :
  forall state,
    (queued (pathsToIterate state) <= fuel)%nat ->
    exists html ts,
      findLoop fuel state = Ok (html, ts)
      /\ Permutation html (htmlFiles state ++ pending isHtml (pathsToIterate state))
      /\ Permutation ts (tsFiles state ++ pending isTs (pathsToIterate state)).
Proof.
  induction fuel as [|fuel IH]; intros [html ts queue] Hfuel; cbn [pathsToIterate] in Hfuel.
  - destruct queue as [|[p es] queue]; [|cbn in Hfuel; lia].
    exists html, ts. cbn. rewrite !app_nil_r. auto.
  - destruct queue as [|[p es] queue].
    + exists html, ts. cbn. rewrite !app_nil_r. auto.
    + cbn [findLoop pathsToIterate htmlFiles tsFiles].
      pose proof (visit_entries p es
                    {| htmlFiles := html; tsFiles := ts; pathsToIterate := queue |})
        as (Hh & Ht & Hq).
      cbv zeta in *. cbn [htmlFiles tsFiles pathsToIterate] in Hh, Ht, Hq.
      set (state' := fold_left (visitEntry p) es
                       {| htmlFiles := html; tsFiles := ts; pathsToIterate := queue |}) in *.
      destruct (IH state') as (h & t & Hrun & Hh' & Ht').
      { rewrite Hq.
        change (queued ((p, es) :: queue))
          with (S (directoriesIn es) + queued queue)%nat in Hfuel.
        lia. }
      exists h, t. split; [exact Hrun|].
      change (pending isHtml ((p, es) :: queue))
        with (filesBelow isHtml p es ++ pending isHtml queue).
      change (pending isTs ((p, es) :: queue))
        with (filesBelow isTs p es ++ pending isTs queue).
      split.
      * rewrite Hh', Hh. apply Permutation_app_head. apply Permutation_app_comm.
      * rewrite Ht', Ht. apply Permutation_app_head. apply Permutation_app_comm.
Qed.

Lemma findRelevantFiles_finds (root : jsstring) (entries : list dirent) :
  exists html ts,
    findRelevantFiles root entries = Ok (html, ts)
    /\ Permutation html (filesBelow isHtml root entries)
    /\ Permutation ts (filesBelow isTs root entries).
Proof.
  unfold findRelevantFiles.
  destruct (findLoop_finds (directories (Directory root entries))
              {| htmlFiles := []; tsFiles := []; pathsToIterate := [(root, entries)] |})
    as (h & t & Hrun & Hh & Ht).
  - cbn [pathsToIterate queued fold_right snd]. rewrite directories_directory. lia.
  - exists h, t. split; [exact Hrun|].
    cbn [htmlFiles tsFiles pathsToIterate pending flat_map fst snd app] in Hh, Ht.
    rewrite app_nil_r in Hh, Ht. split; assumption.
Qed.

(** The paths listed below a directory lie under it and keep the suffix of
    the name. *)
Lemma filesOf_paths (root suffix : jsstring) (entry : dirent) :
  forall currentPath,
    startsWith root currentPath = true ->
    Forall (fun path => endsWith path suffix = true /\ startsWith root path = true)
           (filesOf (fun n => endsWith n suffix) currentPath entry).
Proof.
  induction entry as [n|n sub IH|n] using dirent_nested_ind; intros currentPath Hroot.
  - cbn [filesOf]. destruct (endsWith n suffix) eqn:E; constructor; [|constructor].
    split; [now apply resolveChild_endsWith|now apply resolveChild_startsWith].
  - rewrite filesOf_directory. unfold filesBelow.
    pose proof (resolveChild_startsWith root currentPath n Hroot) as Hsub.
    induction IH as [|e sub He _ IHsub]; [constructor|].
    cbn [flat_map]. apply Forall_app. split; [now apply He|exact IHsub].
  - constructor.
Qed.

Lemma filesBelow_paths (root suffix : jsstring) (entries : list dirent) :
  Forall (fun path => endsWith path suffix = true /\ startsWith root path = true)
         (filesBelow (fun n => endsWith n suffix) root entries).
Proof.
  unfold filesBelow. induction entries as [|e entries IH]; [constructor|].
  cbn [flat_map]. apply Forall_app. split; [|exact IH].
  apply filesOf_paths. rewrite <- (app_nil_r root) at 2. apply startsWith_self_app.
Qed.

End FilesFacts.

Import Files FilesFacts.

(** X22: [findRelevantFiles] always comes to an end, and what it returns
    is, up to the order, every file below the target folder whose name ends
    with [.html], and every file whose name ends with [.ts], each once,
    subdirectories included; a directory or a link with such a name is not
    listed. *)
Theorem discovery_finds_every_file_once (root : jsstring) (entries : list dirent) :
  exists html ts,
    findRelevantFiles root entries = Ok (html, ts)
    /\ Permutation html (filesBelow isHtml root entries)
    /\ Permutation ts (filesBelow isTs root entries).
Proof. apply findRelevantFiles_finds. Qed.

(** X23: every path that [findRelevantFiles] returns lies under the target
    folder and keeps its extension: the markup files end with [.html], the
    program files with [.ts], and no path is in both lists. *)
Theorem discovered_paths_are_typed (root : jsstring) (entries : list dirent)
  (html ts : list jsstring) :
  findRelevantFiles root entries = Ok (html, ts) ->
  Forall (fun path => endsWith path (str ".html") = true /\ startsWith root path = true) html
  /\ Forall (fun path => endsWith path (str ".ts") = true /\ startsWith root path = true) ts
  /\ (forall path, In path html -> ~ In path ts).
Proof.
  intro Hrun.
  destruct (findRelevantFiles_finds root entries) as (h & t & Hrun' & Hh & Ht).
  rewrite Hrun in Hrun'. injection Hrun' as <- <-.
  assert (Fh : Forall (fun path => endsWith path (str ".html") = true
                                   /\ startsWith root path = true) html).
  { eapply Permutation_Forall; [symmetry; exact Hh|]. apply filesBelow_paths. }
  assert (Ft : Forall (fun path => endsWith path (str ".ts") = true
                                   /\ startsWith root path = true) ts).
  { eapply Permutation_Forall; [symmetry; exact Ht|]. apply filesBelow_paths. }
  repeat split; try assumption.
  intros path Hin1 Hin2.
  rewrite Forall_forall in Fh, Ft.
  destruct (Fh path Hin1) as [E1 _]. destruct (Ft path Hin2) as [E2 _].
  pose proof (html_is_not_ts path E1) as E. unfold isTs in E. congruence.
Qed.

Lemma discovered_paths_are_typed_witness :
  let entries := [File (str "a.html");
                  Directory (str "lib.ts") [File (str "x.ts"); Other (str "l.ts")];
                  File (str "notes.md")] in
  Forall (fun path => endsWith path (str ".html") = true
                      /\ startsWith (str "/repo") path = true) [str "/repo/a.html"]
  /\ Forall (fun path => endsWith path (str ".ts") = true
                         /\ startsWith (str "/repo") path = true) [str "/repo/lib.ts/x.ts"]
  /\ (forall path, In path [str "/repo/a.html"] -> ~ In path [str "/repo/lib.ts/x.ts"]).
Proof.
  intro entries.
  apply (discovered_paths_are_typed (str "/repo") entries). reflexivity.
Defined.

(* ================================================================== *)
(** * Runs of the resolver on plain candidates *)
(* ================================================================== *)

Module PlainRuns.
Import JsString JsValue JsStringFacts Vocabulary Resolver ResolverFacts Coverage ResolverMore.




























End PlainRuns.

Import PlainRuns.








(* ================================================================== *)
(** * The runs on the store and the extractors as functions *)
(* ================================================================== *)

Module RunFacts.
Import JsString JsValue Vocabulary Markup MarkupFacts TraversalFacts Program ProgramFacts.
Import CoverageFacts Arrays.

Lemma read_create_old {A : Type} (s : store A) (array : address) (items new : list A) :
  read s array = Some items -> read (s ++ [new]) array = Some items.
Proof.
  unfold read. intro H. rewrite nth_error_app1; [exact H|].
  apply nth_error_Some. congruence.
Qed.

Lemma read_create_new {A : Type} (s : store A) (new : list A) :
  read (s ++ [new]) (List.length s) = Some new.
Proof.
  unfold read. rewrite nth_error_app2 by lia. now rewrite Nat.sub_diag.
Qed.

Lemma write_create_new {A : Type} (s : store A) (new items : list A) :
  write (s ++ [new]) (List.length s) items = s ++ [items].
Proof. induction s as [|a s IH]; [reflexivity|]. cbn. now rewrite IH. Qed.

Lemma write_write {A : Type} (s : store A) (array : address) (items1 items2 : list A) :
  write (write s array items1) array items2 = write s array items2.
Proof.
  revert array. induction s as [|a s IH]; intros [|array]; cbn; try reflexivity.
  now rewrite IH.
Qed.

Lemma read_write {A : Type} (s : store A) (array : address) (items new : list A) :
  read s array = Some items -> read (write s array new) array = Some new.
Proof.
  unfold read. revert array. induction s as [|a s IH]; intros [|array]; cbn;
    try discriminate; [reflexivity|apply IH].
Qed.

Lemma write_read {A : Type} (s : store A) (array : address) (items : list A) :
  read s array = Some items -> write s array items = s.
Proof.
  unfold read. revert array. induction s as [|a s IH]; intros [|array]; cbn;
    try discriminate.
  - now intros [= ->].
  - intro H. now rewrite (IH _ H).
Qed.

(** ** The markup run *)

Lemma markup_step {A B : Type} (r : MarkupRun.run A) (k : A -> MarkupRun.run B)
  (m m' : MarkupRun.memory) (a : A) :
  r m = Ok (a, m') -> MarkupRun.andThen r k m = k a m'.
Proof. unfold MarkupRun.andThen. now intros ->. Qed.

Lemma nodesOf_read (array : address) (m : MarkupRun.memory) (items : list htmlnode) :
  read (MarkupRun.nodeArrays m) array = Some items ->
  MarkupRun.nodesOf array m = Ok (items, m).
Proof. unfold MarkupRun.nodesOf. now intros ->. Qed.

Lemma shift_read (array : address) (m : MarkupRun.memory) (first : htmlnode)
  (rest : list htmlnode) :
  read (MarkupRun.nodeArrays m) array = Some (first :: rest) ->
  MarkupRun.shift array m
  = Ok (first, {| MarkupRun.nodeArrays := write (MarkupRun.nodeArrays m) array rest;
                  MarkupRun.keyArrays := MarkupRun.keyArrays m |}).
Proof.
  intro H. unfold MarkupRun.shift. now rewrite (markup_step _ _ _ _ _ (nodesOf_read _ _ _ H)).
Qed.

Lemma pushNodes_read (array : address) (m : MarkupRun.memory) (items nodes : list htmlnode) :
  read (MarkupRun.nodeArrays m) array = Some items ->
  MarkupRun.pushNodes array nodes m
  = Ok (tt, {| MarkupRun.nodeArrays := write (MarkupRun.nodeArrays m) array (items ++ nodes);
               MarkupRun.keyArrays := MarkupRun.keyArrays m |}).
Proof.
  intro H. unfold MarkupRun.pushNodes.
  now rewrite (markup_step _ _ _ _ _ (nodesOf_read _ _ _ H)).
Qed.

Lemma pushKeys_read (array : address) (m : MarkupRun.memory) (items keys : list jsstring) :
  read (MarkupRun.keyArrays m) array = Some items ->
  MarkupRun.pushKeys array keys m
  = Ok (tt, {| MarkupRun.nodeArrays := MarkupRun.nodeArrays m;
               MarkupRun.keyArrays := write (MarkupRun.keyArrays m) array (items ++ keys) |}).
Proof.
  intro H. unfold MarkupRun.pushKeys.
  rewrite (markup_step (MarkupRun.keysOf array) _ m m items); [reflexivity|].
  unfold MarkupRun.keysOf. now rewrite H.
Qed.

Lemma markup_lift {A B : Type} (o : outcome A) (k : A -> MarkupRun.run B)
  (m : MarkupRun.memory) :
  MarkupRun.andThen (MarkupRun.lift o) k m = (a <- o ;; k a m).
Proof. unfold MarkupRun.andThen, MarkupRun.lift. now destruct o. Qed.

(** The loop on the store is the loop of the extractor on what the queue
    and the results hold; it leaves the queue empty and touches no other
    array. *)
Lemma markup_loop_refines (fuel : nat) :
  forall (nodesToIterate results : address) (m : MarkupRun.memory)
         (queue : list htmlnode) (keys : list jsstring),
    read (MarkupRun.nodeArrays m) nodesToIterate = Some queue ->
    read (MarkupRun.keyArrays m) results = Some keys ->
    MarkupRun.parseLoop fuel nodesToIterate results m
    = (found <- Markup.parseLoop fuel queue keys ;;
       Ok (tt, {| MarkupRun.nodeArrays := write (MarkupRun.nodeArrays m) nodesToIterate [];
                  MarkupRun.keyArrays := write (MarkupRun.keyArrays m) results found |})).
Proof.
  assert (Hempty : forall fuel q r m keys,
             read (MarkupRun.nodeArrays m) q = Some [] ->
             read (MarkupRun.keyArrays m) r = Some keys ->
             MarkupRun.parseLoop fuel q r m
             = Ok (tt, {| MarkupRun.nodeArrays := write (MarkupRun.nodeArrays m) q [];
                          MarkupRun.keyArrays := write (MarkupRun.keyArrays m) r keys |})).
  { intros fuel0 q r m keys Hq Hr. rewrite (write_read _ _ _ Hq), (write_read _ _ _ Hr).
    destruct m as [nodes keyStore].
    destruct fuel0; cbn [MarkupRun.parseLoop];
      now rewrite (markup_step _ _ _ _ _ (nodesOf_read _ _ _ Hq)). }
  induction fuel as [|fuel IH]; intros q r m queue keys Hq Hr.
  - destruct queue as [|currentNode rest]; [now apply Hempty|].
    cbn [MarkupRun.parseLoop Markup.parseLoop bind].
    now rewrite (markup_step _ _ _ _ _ (nodesOf_read _ _ _ Hq)).
  - destruct queue as [|currentNode rest]; [now apply Hempty|].
    cbn [MarkupRun.parseLoop Markup.parseLoop].
    rewrite (markup_step _ _ _ _ _ (nodesOf_read _ _ _ Hq)).
    rewrite (markup_step _ _ _ _ _ (shift_read _ _ _ _ Hq)).
    set (m2 := {| MarkupRun.nodeArrays
                  := write (MarkupRun.nodeArrays m) q (rest ++ pushedNodes currentNode);
                  MarkupRun.keyArrays := MarkupRun.keyArrays m |}).
    assert (Hpush : MarkupRun.pushNodes q (pushedNodes currentNode)
                      {| MarkupRun.nodeArrays := write (MarkupRun.nodeArrays m) q rest;
                         MarkupRun.keyArrays := MarkupRun.keyArrays m |}
                    = Ok (tt, m2)).
    { rewrite (pushNodes_read q _ rest)
        by (cbn [MarkupRun.nodeArrays]; exact (read_write _ _ _ _ Hq)).
      cbn [MarkupRun.nodeArrays MarkupRun.keyArrays]. now rewrite write_write. }
    rewrite (markup_step _ _ _ _ _ Hpush).
    assert (Hq' : read (MarkupRun.nodeArrays m2) q = Some (rest ++ pushedNodes currentNode))
      by exact (read_write _ _ _ _ Hq).
    assert (Hr' : read (MarkupRun.keyArrays m2) r = Some keys) by exact Hr.
    destruct (nonEmpty (rawAttrs currentNode) || nonEmpty (rawText currentNode)).
    + unfold MarkupRun.andThen at 1. rewrite markup_lift.
      destruct (getAttributeTranslation currentNode) as [attrValue| | |];
        cbn [bind fst snd]; try reflexivity.
      rewrite markup_lift.
      destruct (getTextTranslation currentNode) as [textValue| | |];
        cbn [bind fst snd]; try reflexivity.
      rewrite (pushKeys_read r m2 keys _ Hr').
      cbn [bind fst snd].
      rewrite (IH q r _ (rest ++ pushedNodes currentNode) (keys ++ attrValue ++ textValue))
        by first [exact Hq'|exact (read_write _ _ _ _ Hr)].
      subst m2. cbn [MarkupRun.nodeArrays MarkupRun.keyArrays].
      destruct (Markup.parseLoop fuel _ _); cbn [bind]; try reflexivity.
      now rewrite !write_write.
    + unfold MarkupRun.andThen at 1. unfold MarkupRun.ret at 1. cbn [bind fst snd].
      rewrite (IH q r m2 _ _ Hq' Hr').
      subst m2. cbn [MarkupRun.nodeArrays MarkupRun.keyArrays].
      destruct (Markup.parseLoop fuel _ _); cbn [bind]; try reflexivity.
      now rewrite !write_write.
Qed.

(** A run of [parseHTMLAst] returns what the extractor returns on what
    [trees] holds, in a new array; it adds two arrays to the store, the
    queue that it has emptied and the results, and touches no other. *)
Lemma markup_run_refines (trees : address) (m : MarkupRun.memory) (content : list htmlnode) :
  read (MarkupRun.nodeArrays m) trees = Some content ->
  MarkupRun.parseHTMLAst trees m
  = (found <- Markup.parseHTMLAst content ;;
     Ok (List.length (MarkupRun.keyArrays m),
         {| MarkupRun.nodeArrays := MarkupRun.nodeArrays m ++ [[]];
            MarkupRun.keyArrays := MarkupRun.keyArrays m ++ [found] |})).
Proof.
  intro Htrees. unfold MarkupRun.parseHTMLAst.
  set (m1 := {| MarkupRun.nodeArrays := MarkupRun.nodeArrays m;
                MarkupRun.keyArrays := MarkupRun.keyArrays m ++ [[]] |}).
  set (m2 := {| MarkupRun.nodeArrays := MarkupRun.nodeArrays m ++ [content];
                MarkupRun.keyArrays := MarkupRun.keyArrays m ++ [[]] |}).
  rewrite (markup_step MarkupRun.newKeys _ m m1 (List.length (MarkupRun.keyArrays m)))
    by reflexivity.
  assert (Hspread : MarkupRun.spread trees m1
                    = Ok (List.length (MarkupRun.nodeArrays m), m2)).
  { unfold MarkupRun.spread.
    now rewrite (markup_step _ _ _ _ _ (nodesOf_read trees m1 content Htrees)). }
  rewrite (markup_step _ _ _ _ _ Hspread).
  assert (Hq : read (MarkupRun.nodeArrays m2) (List.length (MarkupRun.nodeArrays m))
               = Some content) by apply read_create_new.
  assert (Hr : read (MarkupRun.keyArrays m2) (List.length (MarkupRun.keyArrays m))
               = Some []) by apply read_create_new.
  rewrite (markup_step _ _ _ _ _ (nodesOf_read _ _ _ Hq)).
  unfold MarkupRun.andThen. rewrite (markup_loop_refines _ _ _ _ _ _ Hq Hr).
  unfold Markup.parseHTMLAst.
  destruct (Markup.parseLoop (sizes content) content []) as [found| | |];
    cbn [bind fst snd]; try reflexivity.
  unfold MarkupRun.ret. subst m2. cbn [MarkupRun.nodeArrays MarkupRun.keyArrays].
  now rewrite !write_create_new.
Qed.

(** ** The program run *)

Lemma program_step {A B : Type} (r : ProgramRun.run A) (k : A -> ProgramRun.run B)
  (p p' : ProgramRun.memory) (a : A) :
  r p = Ok (a, p') -> ProgramRun.andThen r k p = k a p'.
Proof. unfold ProgramRun.andThen. now intros ->. Qed.

Lemma program_lift {A B : Type} (o : outcome A) (k : A -> ProgramRun.run B)
  (p : ProgramRun.memory) :
  ProgramRun.andThen (ProgramRun.lift o) k p = (a <- o ;; k a p).
Proof. unfold ProgramRun.andThen, ProgramRun.lift. now destruct o. Qed.

Lemma pushValues_read (array : address) (p : ProgramRun.memory) (items values : list value) :
  read (ProgramRun.valueArrays p) array = Some items ->
  ProgramRun.pushValues array values p
  = Ok (tt, {| ProgramRun.rootArrays := ProgramRun.rootArrays p;
               ProgramRun.valueArrays
               := write (ProgramRun.valueArrays p) array (items ++ values) |}).
Proof.
  intro H. unfold ProgramRun.pushValues.
  rewrite (program_step (ProgramRun.valuesOf array) _ p p items); [reflexivity|].
  unfold ProgramRun.valuesOf. now rewrite H.
Qed.

Lemma program_unfold (parseResults : address) (self : value) (children : list tsnode) :
  ProgramRun.parseFiles parseResults (TsNode self children)
  = ProgramRun.andThen (ProgramRun.lift (keysAt self))
      (fun translationKeys =>
         ProgramRun.andThen (ProgramRun.pushValues parseResults translationKeys)
           (fun _ => ProgramRun.forEachRoot parseResults children)).
Proof.
  cbn [ProgramRun.parseFiles]. f_equal.
  assert (H : forall nodes : list tsnode,
             (fix forEachChild (nodes : list tsnode) : ProgramRun.run unit :=
                match nodes with
                | [] => ProgramRun.ret tt
                | child :: rest =>
                    ProgramRun.andThen (ProgramRun.parseFiles parseResults child)
                      (fun _ => forEachChild rest)
                end) nodes = ProgramRun.forEachRoot parseResults nodes).
  { induction nodes as [|child rest IH]; [reflexivity|].
    cbn [ProgramRun.forEachRoot]. now rewrite IH. }
  now rewrite H.
Qed.

Lemma program_forEach_refines (parseResults : address) (children : list tsnode) :
  Forall (fun child =>
            forall (p : ProgramRun.memory) (values : list value),
              read (ProgramRun.valueArrays p) parseResults = Some values ->
              ProgramRun.parseFiles parseResults child p
              = (found <- Program.parseFiles child values ;;
                 Ok (tt, {| ProgramRun.rootArrays := ProgramRun.rootArrays p;
                            ProgramRun.valueArrays
                            := write (ProgramRun.valueArrays p) parseResults found |})))
         children ->
  forall (p : ProgramRun.memory) (values : list value),
    read (ProgramRun.valueArrays p) parseResults = Some values ->
    ProgramRun.forEachRoot parseResults children p
    = (found <- Program.forEachRoot children values ;;
       Ok (tt, {| ProgramRun.rootArrays := ProgramRun.rootArrays p;
                  ProgramRun.valueArrays
                  := write (ProgramRun.valueArrays p) parseResults found |})).
Proof.
  induction children as [|child children IHc]; intros IH p values Hr.
  - cbn [ProgramRun.forEachRoot Program.forEachRoot bind]. unfold ProgramRun.ret.
    rewrite (write_read _ _ _ Hr). now destruct p.
  - cbn [ProgramRun.forEachRoot Program.forEachRoot].
    unfold ProgramRun.andThen. rewrite (Forall_inv IH p values Hr).
    destruct (Program.parseFiles child values) as [values'| | |]; cbn [bind fst snd];
      try reflexivity.
    rewrite (IHc (Forall_inv_tail IH) _ values')
      by (cbn [ProgramRun.valueArrays]; exact (read_write _ _ _ _ Hr)).
    cbn [ProgramRun.rootArrays ProgramRun.valueArrays].
    destruct (Program.forEachRoot children values'); cbn [bind]; try reflexivity.
    now rewrite write_write.
Qed.

(** [parseFiles] on the store is [parseFiles] on what [parseResults]
    holds; it touches no other array. *)
Lemma program_node_refines (parseResults : address) (node : tsnode) :
  forall (p : ProgramRun.memory) (values : list value),
    read (ProgramRun.valueArrays p) parseResults = Some values ->
    ProgramRun.parseFiles parseResults node p
    = (found <- Program.parseFiles node values ;;
       Ok (tt, {| ProgramRun.rootArrays := ProgramRun.rootArrays p;
                  ProgramRun.valueArrays
                  := write (ProgramRun.valueArrays p) parseResults found |})).
Proof.
  induction node as [self children IH] using tsnode_nested_ind.
  intros p values Hr. rewrite parseFiles_unfold, program_unfold, program_lift.
  destruct (keysAt self) as [translationKeys| | |]; cbn [bind]; try reflexivity.
  rewrite (program_step _ _ _ _ _ (pushValues_read _ _ values translationKeys Hr)).
  rewrite (program_forEach_refines parseResults children IH _ (values ++ translationKeys))
    by (cbn [ProgramRun.valueArrays]; exact (read_write _ _ _ _ Hr)).
  cbn [ProgramRun.rootArrays ProgramRun.valueArrays].
  destruct (Program.forEachRoot children (values ++ translationKeys)); cbn [bind];
    try reflexivity.
  now rewrite write_write.
Qed.

(** A run of [parseTSAst] returns what the extractor returns on what
    [files] holds, in a new array; it adds that array to the store and
    touches no other. *)
Lemma program_run_refines (files : address) (p : ProgramRun.memory) (roots : list tsnode) :
  read (ProgramRun.rootArrays p) files = Some roots ->
  ProgramRun.parseTSAst files p
  = (found <- Program.parseTSAst roots ;;
     Ok (List.length (ProgramRun.valueArrays p),
         {| ProgramRun.rootArrays := ProgramRun.rootArrays p;
            ProgramRun.valueArrays := ProgramRun.valueArrays p ++ [found] |})).
Proof.
  intro Hfiles. unfold ProgramRun.parseTSAst.
  set (p1 := {| ProgramRun.rootArrays := ProgramRun.rootArrays p;
                ProgramRun.valueArrays := ProgramRun.valueArrays p ++ [[]] |}).
  rewrite (program_step ProgramRun.newValues _ p p1 (List.length (ProgramRun.valueArrays p)))
    by reflexivity.
  assert (Hroots : ProgramRun.rootsOf files p1 = Ok (roots, p1)).
  { unfold ProgramRun.rootsOf. cbn [p1 ProgramRun.rootArrays]. now rewrite Hfiles. }
  rewrite (program_step _ _ _ _ _ Hroots).
  assert (Hr : read (ProgramRun.valueArrays p1) (List.length (ProgramRun.valueArrays p))
               = Some []) by apply read_create_new.
  unfold ProgramRun.andThen.
  rewrite (program_forEach_refines _ roots) with (values := [])
    by first [exact Hr|apply Forall_forall; intros root _; apply program_node_refines].
  unfold Program.parseTSAst.
  destruct (Program.forEachRoot roots []) as [found| | |]; cbn [bind fst snd];
    try reflexivity.
  unfold ProgramRun.ret. subst p1. cbn [ProgramRun.rootArrays ProgramRun.valueArrays].
  now rewrite write_create_new.
Qed.

End RunFacts.

Import RunFacts.

(** C9: extraction run twice gives the same candidates.  The extractors run
    on a store of arrays: [trees] and [files] are arrays of it, and each run
    creates the arrays it works on.  For two arrays of identical markup
    trees (the same array, or two arrays of trees with the same shape, the
    same raw strings and [getAttribute] methods that answer alike), a run of
    [parseHTMLAst] on the first does not run out of fuel; when it returns,
    the two arrays hold what they held, a second run on the second array
    returns too, in a new array, and the two result arrays hold the same
    candidates, in the same order, which are those of the extractor as a
    function of the trees; when it throws, the run on the second array
    throws as well.  The same holds of [parseTSAst] on two arrays of the
    same roots. *)
Theorem repeated_extraction_gives_same_candidates
  (m : MarkupRun.memory) (trees1 trees2 : Arrays.address) (content1 content2 : list htmlnode)
  (p : ProgramRun.memory) (files1 files2 : Arrays.address) (roots : list Program.tsnode) :
  Arrays.read (MarkupRun.nodeArrays m) trees1 = Some content1 ->
  Arrays.read (MarkupRun.nodeArrays m) trees2 = Some content2 ->
  Forall2 sameTree content1 content2 ->
  Arrays.read (ProgramRun.rootArrays p) files1 = Some roots ->
  Arrays.read (ProgramRun.rootArrays p) files2 = Some roots ->
  MarkupRun.parseHTMLAst trees1 m <> OutOfFuel
  /\ match MarkupRun.parseHTMLAst trees1 m with
     | Ok (results1, m1) =>
         exists found results2 m2,
           MarkupRun.parseHTMLAst trees2 m1 = Ok (results2, m2)
           /\ Arrays.read (MarkupRun.keyArrays m1) results1 = Some found
           /\ Arrays.read (MarkupRun.keyArrays m2) results2 = Some found
           /\ Arrays.read (MarkupRun.keyArrays m2) results1 = Some found
           /\ results1 <> results2
           /\ Arrays.read (MarkupRun.nodeArrays m2) trees1 = Some content1
           /\ Arrays.read (MarkupRun.nodeArrays m2) trees2 = Some content2
           /\ Markup.parseHTMLAst content1 = Ok found
     | failure => MarkupRun.parseHTMLAst trees2 m = failure
     end
  /\ match ProgramRun.parseTSAst files1 p with
     | Ok (results1, p1) =>
         exists found results2 p2,
           ProgramRun.parseTSAst files2 p1 = Ok (results2, p2)
           /\ Arrays.read (ProgramRun.valueArrays p1) results1 = Some found
           /\ Arrays.read (ProgramRun.valueArrays p2) results2 = Some found
           /\ Arrays.read (ProgramRun.valueArrays p2) results1 = Some found
           /\ results1 <> results2
           /\ Arrays.read (ProgramRun.rootArrays p2) files1 = Some roots
           /\ Arrays.read (ProgramRun.rootArrays p2) files2 = Some roots
           /\ Program.parseTSAst roots = Ok found
     | failure => ProgramRun.parseTSAst files2 p = failure
     end.
Proof.
  intros Htrees1 Htrees2 Hsame Hfiles1 Hfiles2.
  pose proof (parseHTMLAst_sameTree _ _ Hsame) as Hpure.
  rewrite (markup_run_refines trees1 m content1 Htrees1).
  rewrite (markup_run_refines trees2 m content2 Htrees2).
  rewrite (program_run_refines files1 p roots Hfiles1).
  rewrite (program_run_refines files2 p roots Hfiles2).
  split; [|split].
  - pose proof (parseLoop_ends (sizes content1) content1 [] (le_n _)) as Hends.
    unfold Markup.parseHTMLAst.
    destruct (Markup.parseLoop (sizes content1) content1 []); cbn [bind];
      try discriminate. contradiction.
  - rewrite <- Hpure.
    destruct (Markup.parseHTMLAst content1) as [found| | |] eqn:Hfound; cbn [bind];
      try reflexivity.
    set (m1 := {| MarkupRun.nodeArrays := MarkupRun.nodeArrays m ++ [[]];
                  MarkupRun.keyArrays := MarkupRun.keyArrays m ++ [found] |}).
    assert (H2 : Arrays.read (MarkupRun.nodeArrays m1) trees2 = Some content2)
      by exact (read_create_old _ _ _ _ Htrees2).
    exists found. eexists. eexists.
    rewrite (markup_run_refines trees2 m1 content2 H2), <- Hpure. cbn [bind].
    split; [reflexivity|]. cbn [m1 MarkupRun.nodeArrays MarkupRun.keyArrays].
    split; [apply read_create_new|]. split; [apply read_create_new|].
    split; [apply read_create_old, read_create_new|].
    split; [rewrite length_app; cbn [List.length]; lia|].
    split; [now apply read_create_old, read_create_old|].
    split; [now apply read_create_old, read_create_old|reflexivity].
  - destruct (Program.parseTSAst roots) as [found| | |] eqn:Hfound; cbn [bind];
      try reflexivity.
    set (p1 := {| ProgramRun.rootArrays := ProgramRun.rootArrays p;
                  ProgramRun.valueArrays := ProgramRun.valueArrays p ++ [found] |}).
    assert (H2 : Arrays.read (ProgramRun.rootArrays p1) files2 = Some roots) by exact Hfiles2.
    exists found. eexists. eexists.
    rewrite (program_run_refines files2 p1 roots H2), Hfound. cbn [bind].
    split; [reflexivity|]. cbn [p1 ProgramRun.rootArrays ProgramRun.valueArrays].
    split; [apply read_create_new|]. split; [apply read_create_new|].
    split; [apply read_create_old, read_create_new|].
    split; [rewrite length_app; cbn [List.length]; lia|].
    split; [exact Hfiles1|]. split; [exact Hfiles2|reflexivity].
Qed.

Lemma repeated_extraction_gives_same_candidates_witness :
  let text := textNode (str "{{ 'nav.home' | translate }}") in
  let node := HtmlNode (Some [text]) (Some (str "translate='a.b'")) (Some [])
                (Some (attribute [(str "translate", str "a.b")])) in
  let call := callExpression (propertyAccess (identifier "translate") "instant")
                [stringLiteral (str "errors.timeout")] in
  let m := {| MarkupRun.nodeArrays := [[node]]; MarkupRun.keyArrays := [] |} in
  let p := {| ProgramRun.rootArrays := [[sourceFile [expressionStatement call]]];
              ProgramRun.valueArrays := [] |} in
  (exists m1 m2,
     MarkupRun.parseHTMLAst O m = Ok (0%nat, m1)
     /\ MarkupRun.parseHTMLAst O m1 = Ok (1%nat, m2)
     /\ MarkupRun.keyArrays m2 = [[str "a.b"; str "nav.home"]; [str "a.b"; str "nav.home"]])
  /\ (exists p1 p2,
        ProgramRun.parseTSAst O p = Ok (0%nat, p1)
        /\ ProgramRun.parseTSAst O p1 = Ok (1%nat, p2)
        /\ ProgramRun.valueArrays p2
           = [[VStr (str "errors.timeout")]; [VStr (str "errors.timeout")]]).
Proof.
  intros text node call m p.
  destruct (repeated_extraction_gives_same_candidates m O O [node] [node] p O O
              [sourceFile [expressionStatement call]] eq_refl eq_refl)
    as (_ & Hmarkup & Hprogram); try reflexivity.
  - constructor; [|constructor]. apply same_inner.
    + constructor; [|constructor]. apply same_inner; [constructor|exact I].
    + intro name. reflexivity.
  - split.
    + change (MarkupRun.parseHTMLAst O m)
        with (Ok (0%nat, {| MarkupRun.nodeArrays := [[node]; []];
                            MarkupRun.keyArrays := [[str "a.b"; str "nav.home"]] |}))
        in Hmarkup |- *.
      destruct Hmarkup as (found & results2 & m2 & Hrun & Hfound & _).
      eexists. exists m2. split; [reflexivity|]. injection Hfound as <-.
      vm_compute in Hrun. injection Hrun as <- <-. split; reflexivity.
    + change (ProgramRun.parseTSAst O p)
        with (Ok (0%nat, {| ProgramRun.rootArrays := [[sourceFile [expressionStatement call]]];
                            ProgramRun.valueArrays := [[VStr (str "errors.timeout")]] |}))
        in Hprogram |- *.
      destruct Hprogram as (found & results2 & p2 & Hrun & Hfound & _).
      eexists. exists p2. split; [reflexivity|]. injection Hfound as <-.
      vm_compute in Hrun. injection Hrun as <- <-. split; reflexivity.
Defined.
